(** * YesBot event distribution: registry lookup, filter pipeline, dispatch

    A shallow embedding of [EventDistribution] (the class of the
    event-distribution module) and the properties of its registry
    lookup ([getHandlers]), its filter pipeline ([filterHandlers]), its
    dispatcher ([handleEvent]) and its autocomplete router
    ([handleAutocomplete]).

    Conventions of the embedding:
    - a JavaScript value that may be [undefined] is an [option];
    - a plain object used as a string-keyed dictionary of strings (the
      [errors] bag of a handler) is a [gmap string string];
    - the registry tree keeps the properties of each object node as a
      property list, read with [prop]; this keeps [getHandlers] a
      structural recursion on the tree;
    - calls into collaborators (the handlers' [handle], [rejectWithError],
      Sentry, the logger, the platform's [respond]) are recorded in a trace
      of [Effect]s by a small writer/exception monad [Eff];
    - what [handle] and an autocomplete callback do (return or throw) is
      part of the input; in [handleEvent] and [handleAutocomplete] the
      other collaborators, and the constructor of a stateless handler,
      return normally and a dictionary holds its own properties only;
      [runAcceptedFull] is the turn of the loop over the accepted handlers
      in which every call can throw and the error-message map inherits
      from [Object.prototype]. *)

From stdpp Require Import base decidable option list strings gmap.

Set Warnings "-register-all".
Open Scope string_scope.
Open Scope list_scope.

(** ** JavaScript truthiness of the values the code tests *)

(** [!s] for a string that may be [undefined]: [undefined] and the empty
    string are falsy, every other string is truthy. *)
Definition falsy (s : option string) : bool :=
  match s with
  | None => true
  | Some s => bool_decide (s = "")
  end.

(** [o[k]] for a dictionary of strings, kept only when it is truthy:
    [errors[reason]] is tested before it is used as the reply's text. *)
Definition truthy_entry (o : gmap string string) (k : string) : option string :=
  match o !! k with
  | Some text => if falsy (Some text) then None else Some text
  | None => None
  end.

(** ** types/base, types/handler, types/hioc *)

Inductive DiscordEvent : Type :=
  | BUTTON_CLICKED | CONTEXT_MENU_MESSAGE | CONTEXT_MENU_USER | MEMBER_LEAVE
  | MESSAGE | REACTION_ADD | REACTION_REMOVE | GUILD_MEMBER_UPDATE | READY
  | SLASH_COMMAND | THREAD_CREATE | TIMER | VOICE_STATE_UPDATE | MEMBER_JOIN.

Inductive EventLocation : Type := ANYWHERE | DIRECT_MESSAGE | SERVER.

Inductive HandlerRejectedReason : Type :=
  | WRONG_LOCATION | MISSING_ROLE | DOESNT_MATCH_REGEX.

(** [InstanceOrConstructor]: a handler is registered either as a shared
    instance or as its class.  The number is the identity of the
    reference: [Array.prototype.includes] compares references. *)
Inductive InstanceOrConstructor : Type :=
  | Instance (ref : nat)
  | Constructor (ref : nat).

#[global] Instance InstanceOrConstructor_eq_dec : EqDecision InstanceOrConstructor.
Proof. solve_decision. Defined.

(** What a [catch] clause can receive. *)
Inductive Exception (Params : Type) : Type :=
  | Error (message : string)
  | ErrorWithParams (message : string) (params : Params)
  | Thrown (toString : string).
Arguments Error {Params} message.
Arguments ErrorWithParams {Params} message params.
Arguments Thrown {Params} toString.

(** An option of a slash command.  [autocomplete] is the callback, absent
    when the option does not declare one; it either returns the choices or
    throws. *)
Record CommandOption (Params : Type) : Type := {
  name : string;
  autocomplete : option (string → list string + Exception Params);
}.
Arguments name {Params} _.
Arguments autocomplete {Params} _.

(** [EventHandlerOptions], the fields [EventDistribution] reads.  A
    [contentRegex] is represented by the set of strings it matches;
    [slashOptions] is the [options] array of a slash command's options
    (read as [slashCommandHioc.options.options]). *)
Record EventHandlerOptions (Params : Type) : Type := {
  event : DiscordEvent;
  location : option EventLocation;
  allowedRoles : option (list string);
  contentRegex : option (string → bool);
  errors : option (gmap string string);
  slashOptions : option (list (CommandOption Params));
}.
Arguments event {Params} _.
Arguments location {Params} _.
Arguments allowedRoles {Params} _.
Arguments contentRegex {Params} _.
Arguments errors {Params} _.
Arguments slashOptions {Params} _.

(** [HIOC]: a handler descriptor, the instance or constructor with its
    options. *)
Record HIOC (Params : Type) : Type := {
  ioc : InstanceOrConstructor;
  options : EventHandlerOptions Params;
}.
Arguments ioc {Params} _.
Arguments options {Params} _.

(** [StringIndexedHIOCTreeNode]: an array of descriptors, or an object from
    key segments to child nodes.  [isHIOCArray] is the test of the first
    constructor. *)
Inductive StringIndexedHIOCTreeNode (Params : Type) : Type :=
  | HIOCArray (handlers : list (HIOC Params))
  | HIOCTree (children : list (string * StringIndexedHIOCTreeNode Params)).
Arguments HIOCArray {Params} handlers.
Arguments HIOCTree {Params} children.

(** [o[k]] on a property list: the property named [k], or [undefined]. *)
Fixpoint prop {V : Type} (k : string) (o : list (string * V)) : option V :=
  match o with
  | [] => None
  | (k', v) :: o' => if bool_decide (k' = k) then Some v else prop k o'
  end.

(** [HandlerInfo], with the member reduced to the names of its roles. *)
Record HandlerInfo : Type := {
  handlerKeys : list string;
  isDirectMessage : bool;
  member : option (list string);
  content : option string;
}.

(** ** Effects and the monad of the asynchronous methods *)

(** The calls [EventDistribution] makes into its collaborators.  The
    [InstanceOrConstructor] carried by [RejectWithError] and
    [SentryCapture] records the handler on whose behalf the call is made. *)
Inductive Effect (Params : Type) : Type :=
  | New (c : InstanceOrConstructor)
  | Handle (c : InstanceOrConstructor)
  | RejectWithError (c : InstanceOrConstructor) (error : Exception Params)
  | SentryCapture (c : InstanceOrConstructor) (e : Exception Params)
  | LogHandlerError (c : InstanceOrConstructor) (e : Exception Params)
  | WarnNoHandler (keys : list string)
  | WarnNoOption (c : InstanceOrConstructor) (optionName : string)
  | Autocomplete (optionName value : string)
  | LogAutocompleteError (e : Exception Params)
  | Respond (choices : list string).
Arguments New {Params} c.
Arguments Handle {Params} c.
Arguments RejectWithError {Params} c error.
Arguments SentryCapture {Params} c e.
Arguments LogHandlerError {Params} c e.
Arguments WarnNoHandler {Params} keys.
Arguments WarnNoOption {Params} c optionName.
Arguments Autocomplete {Params} optionName value.
Arguments LogAutocompleteError {Params} e.
Arguments Respond {Params} choices.

(** A computation: the effects it performed, then its value or the
    exception it threw. *)
Definition Eff (Params A : Type) : Type :=
  list (Effect Params) * (A + Exception Params).

Definition Eff_ret {Params A} (a : A) : Eff Params A := ([], inl a).

Definition Eff_bind {Params A B} (f : A → Eff Params B) (m : Eff Params A)
  : Eff Params B :=
  match m with
  | (tr, inl a) => let '(tr', r) := f a in (tr ++ tr', r)
  | (tr, inr e) => (tr, inr e)
  end.

#[global] Instance Eff_mret {Params} : MRet (Eff Params) := @Eff_ret Params.
#[global] Instance Eff_mbind {Params} : MBind (Eff Params) := @Eff_bind Params.

(** [try { body } catch (e) { handler }]. *)
Definition try_catch {Params A} (body : Eff Params A)
    (handler : Exception Params → Eff Params A) : Eff Params A :=
  match body with
  | (tr, inl a) => (tr, inl a)
  | (tr, inr e) => let '(tr', r) := handler e in (tr ++ tr', r)
  end.

Definition emit {Params} (ev : Effect Params) : Eff Params unit := ([ev], inl ()).

(** [for (const x of xs) { s = body x s }]. *)
Fixpoint forOf {Params A S} (body : A → S → Eff Params S) (xs : list A) (s : S)
  : Eff Params S :=
  match xs with
  | [] => mret s
  | x :: xs' => s' ← body x s; forOf body xs' s'
  end.

(** ** getHandlers *)

Section EventDistribution.
Context {Params : Type}.
Local Abbreviation HIOC := (HIOC Params).
Local Abbreviation Node := (StringIndexedHIOCTreeNode Params).

(** The walk below a node that is not [undefined].  [descend k] is the
    recursive call [this.getHandlers(handlerTree[k], restKeys)]. *)
Fixpoint getHandlersIn (handlerTree : Node) (keys : list string) : list HIOC :=
  match handlerTree with
  | HIOCArray handlers => handlers
  | HIOCTree children =>
      let restKeys := tail keys in
      let descend :=
        fix descend (k : string) (o : list (string * Node)) : list HIOC :=
          match o with
          | [] => []
          | (k', child) :: o' =>
              if bool_decide (k' = k) then getHandlersIn child restKeys
              else descend k o'
          end in
      let handlers := descend "" children in
      match head keys with
      | Some currentKey =>
          if falsy (Some currentKey) then handlers
          else handlers ++ descend currentKey children
      | None => handlers
      end
  end.

(** [getHandlers(handlerTree, [currentKey, ...restKeys])]. *)
Definition getHandlers (handlerTree : option Node) (keys : list string)
  : list HIOC :=
  match handlerTree with
  | None => []
  | Some node => getHandlersIn node keys
  end.

(** The same walk, which also records the property reads
    [handlerTree[k]] it makes: each read is logged as the path of the node
    that is read, from the node the walk starts at ([path] is the path of
    [handlerTree] itself). *)
Fixpoint getHandlersReads (handlerTree : Node) (path keys : list string)
  : list (list string) * list HIOC :=
  match handlerTree with
  | HIOCArray handlers => ([], handlers)
  | HIOCTree children =>
      let restKeys := tail keys in
      let descend :=
        fix descend (k : string) (o : list (string * Node))
          : list (list string) * list HIOC :=
          match o with
          | [] => ([], [])
          | (k', child) :: o' =>
              if bool_decide (k' = k)
              then getHandlersReads child (path ++ [k]) restKeys
              else descend k o'
          end in
      let '(readsWildcard, handlers) := descend "" children in
      match head keys with
      | Some currentKey =>
          if falsy (Some currentKey)
          then ((path ++ [""]) :: readsWildcard, handlers)
          else
            let '(readsKey, more) := descend currentKey children in
            ((path ++ [""]) :: readsWildcard ++ (path ++ [currentKey]) :: readsKey,
             handlers ++ more)
      | None => ((path ++ [""]) :: readsWildcard, handlers)
      end
  end.

(** The recorded walk from a node that may be [undefined]. *)
Definition getHandlersReadsAt (handlerTree : option Node)
    (path keys : list string) : list (list string) * list HIOC :=
  match handlerTree with
  | None => ([], [])
  | Some node => getHandlersReads node path keys
  end.

(** ** The filter pipeline *)

(** [isMessageRelated] of the events module: a type guard on the options,
    taken as a parameter. *)
Variable isMessageRelated : EventHandlerOptions Params → bool.

Definition isHandlerForLocation (handler : HIOC) (isDirectMessage : bool) : bool :=
  if negb (isMessageRelated (options handler)) then true
  else
    match location (options handler) with
    | Some ANYWHERE => true
    | Some DIRECT_MESSAGE => isDirectMessage
    | Some SERVER => negb isDirectMessage
    | None => false
    end.

Definition isHandlerForRole (handler : HIOC) (roleNames : list string) : bool :=
  if negb (isMessageRelated (options handler)) then true
  else
    match allowedRoles (options handler) with
    | None => true
    | Some allowed =>
        bool_decide (length allowed = 0)
        || existsb (λ role, bool_decide (role ∈ roleNames)) allowed
    end.

Definition matchesContentRegex (handler : HIOC) (content : option string) : bool :=
  match isMessageRelated (options handler), contentRegex (options handler) with
  | true, Some regex =>
      match content with
      | None => false
      | Some text => regex text
      end
  | _, _ => true
  end.

(** [FilterResult]: the union tagged by [accepted]. *)
Inductive FilterResult : Type :=
  | Accept (handler : HIOC)
  | Reject (handler : HIOC) (reason : HandlerRejectedReason).

Definition handler (r : FilterResult) : HIOC :=
  match r with Accept h => h | Reject h _ => h end.

Definition accepted (r : FilterResult) : bool :=
  match r with Accept _ => true | Reject _ _ => false end.

(** [isRejection], which also narrows the type. *)
Definition isRejection (r : FilterResult) : option (HIOC * HandlerRejectedReason) :=
  match r with Accept _ => None | Reject h reason => Some (h, reason) end.

Definition filterHandlers (handlers : list HIOC) (isDirectMessage : bool)
    (roleNames : list string) (content : option string) : list FilterResult :=
  let byLocation :=
    (λ eh, if isHandlerForLocation eh isDirectMessage then Accept eh
           else Reject eh WRONG_LOCATION) <$> handlers in
  let byRole :=
    (λ r, match r with
          | Reject _ _ => r
          | Accept h =>
              if isHandlerForRole h roleNames then r else Reject h MISSING_ROLE
          end) <$> byLocation in
  (λ r, match r with
        | Reject _ _ => r
        | Accept h =>
            if matchesContentRegex h content then r
            else Reject h DOESNT_MATCH_REGEX
        end) <$> byRole.

(** ** The dispatcher *)

(** [this.handlers]: one tree per event. *)
Variable handlers : DiscordEvent → Node.

Definition infoToFilterResults (info : HandlerInfo) (event : DiscordEvent)
  : list FilterResult :=
  let roleNames := default [] (member info) in
  let eventHandlers := getHandlers (Some (handlers event)) (handlerKeys info) in
  filterHandlers eventHandlers (isDirectMessage info) roleNames (content info).

(** What [instance.handle(...args)] does for each handler: it returns, or
    it throws.  The handlers are collaborators, taken as a parameter. *)
Variable handle : InstanceOrConstructor → option (Exception Params).

(** The string values of the [HandlerRejectedReason] enumeration, which
    index the [errors] bag; the enumeration is declared in types/base. *)
Variable reasonKey : HandlerRejectedReason → string.

Definition callHandle (c : InstanceOrConstructor) : Eff Params unit :=
  ([Handle c], match handle c with None => inl () | Some e => inr e end).

(** [e instanceof Error ? e.message : e + ""]. *)
Definition reasonOf (e : Exception Params) : string :=
  match e with
  | Error message => message
  | ErrorWithParams message _ => message
  | Thrown s => s
  end.

(** [hasParams ? new ErrorWithParams(text, e.params) : new Error(text)]. *)
Definition mappedError (text : string) (e : Exception Params) : Exception Params :=
  match e with
  | ErrorWithParams _ params => ErrorWithParams text params
  | _ => Error text
  end.

(** [errors && errors[reason]], as the text to reply with. *)
Definition errorText (h : HIOC) (reason : string) : option string :=
  errs ← errors (options h); truthy_entry errs reason.

(** The body of the loop over [acceptedHiocs]; the state is
    [completedIocs]. *)
Definition runAccepted (h : HIOC) (completedIocs : list InstanceOrConstructor)
  : Eff Params (list InstanceOrConstructor) :=
  let c := ioc h in
  if bool_decide (c ∈ completedIocs) then mret completedIocs
  else
    (match c with
     | Constructor _ => emit (New c)
     | Instance _ => mret ()
     end) ;;
    try_catch (callHandle c)
      (λ e,
         match errorText h (reasonOf e) with
         | Some text => emit (RejectWithError c (mappedError text e))
         | None => emit (SentryCapture c e) ;; emit (LogHandlerError c e)
         end) ;;
    mret (completedIocs ++ [c]).

(** The body of the loop over [rejections]. *)
Definition runRejection (rejection : HIOC * HandlerRejectedReason)
    (completedIocs : list InstanceOrConstructor)
  : Eff Params (list InstanceOrConstructor) :=
  let '(h, reason) := rejection in
  let c := ioc h in
  if bool_decide (c ∈ completedIocs) then mret completedIocs
  else
    match errorText h (reasonKey reason) with
    | None => mret completedIocs
    | Some text =>
        emit (RejectWithError c (Error text)) ;;
        mret (completedIocs ++ [c])
    end.

(** [handleEvent(event, ...args)], on the occurrences [infos] that
    [extractEventInfo(event, ...args)] returned. *)
Definition handleEvent (event : DiscordEvent) (infos : list HandlerInfo)
  : Eff Params unit :=
  let filterResults := infos ≫= (λ i, infoToFilterResults i event) in
  let acceptedHiocs := handler <$> List.filter accepted filterResults in
  completedIocs ← forOf runAccepted acceptedHiocs [];
  let rejections := omap isRejection filterResults in
  forOf runRejection rejections completedIocs ;;
  mret ().

(** ** The guarded call, with the failures of its surroundings *)









(** ** The autocomplete router *)

Record AutocompleteInteraction : Type := {
  commandId : string;
  subcommandGroup : option string;
  subcommand : option string;
  focusedName : string;
  focusedValue : string;
}.

Definition callAutocomplete
    (callback : string → list string + Exception Params)
    (optionName value : string) : Eff Params (list string) :=
  ([Autocomplete optionName value], callback value).

(** The key path of the request: the command id, then the subcommand
    group and the subcommand, each [""] when absent. *)
Definition slashCommandHandlerKeys (interaction : AutocompleteInteraction)
  : list string :=
  [commandId interaction;
   default "" (subcommandGroup interaction);
   default "" (subcommand interaction)].

(** [slashCommandHioc.options.options?.find((o) => o.name === focusedOptionName)]. *)
Definition maybeAutocompleteOption (slashCommandHioc : HIOC)
    (focusedOptionName : string) : option (CommandOption Params) :=
  opts ← slashOptions (options slashCommandHioc);
  List.find (λ o, bool_decide (name o = focusedOptionName)) opts.

Definition handleAutocomplete (interaction : AutocompleteInteraction)
  : Eff Params unit :=
  let tree := handlers SLASH_COMMAND in
  match getHandlers (Some tree) (slashCommandHandlerKeys interaction) with
  | [] => emit (WarnNoHandler (slashCommandHandlerKeys interaction))
  | slashCommandHioc :: _ =>
      let focusedOptionName := focusedName interaction in
      match maybeAutocompleteOption slashCommandHioc focusedOptionName
            ≫= autocomplete with
      | None => emit (WarnNoOption (ioc slashCommandHioc) focusedOptionName)
      | Some callback =>
          try_catch
            (response ← callAutocomplete callback focusedOptionName
                          (focusedValue interaction);
             emit (Respond response))
            (λ e, emit (LogAutocompleteError e) ;; emit (Respond []))
      end
  end.

(** ** Reading a trace *)

(** The handlers whose [handle] was called, in call order. *)
Definition invocations (tr : list (Effect Params)) : list InstanceOrConstructor :=
  omap (λ ev, match ev with Handle c => Some c | _ => None end) tr.

(** The handlers on whose behalf [rejectWithError] was called. *)
Definition replies (tr : list (Effect Params)) : list InstanceOrConstructor :=
  omap (λ ev, match ev with RejectWithError c _ => Some c | _ => None end) tr.

(** The handlers whose failure was sent to Sentry. *)
Definition captures (tr : list (Effect Params)) : list InstanceOrConstructor :=
  omap (λ ev, match ev with SentryCapture c _ => Some c | _ => None end) tr.


(** ** The specification's notions *)

(** Fan-out union: the descriptors met by descending, at each key segment,
    the subtree keyed by the wildcard and the subtree keyed by the literal
    segment; a terminal gives all its descriptors. *)
Inductive reachable : Node → list string → HIOC → Prop :=
  | reach_terminal hs keys h :
      h ∈ hs → reachable (HIOCArray hs) keys h
  | reach_wildcard children keys child h :
      prop "" children = Some child →
      reachable child (tail keys) h →
      reachable (HIOCTree children) keys h
  | reach_literal children key restKeys child h :
      prop key children = Some child →
      reachable child restKeys h →
      reachable (HIOCTree children) (key :: restKeys) h.


(** The first stage that fails, in the order location, role, content. *)
Definition firstFailure (isDirectMessage : bool) (roleNames : list string)
    (content : option string) (h : HIOC) : FilterResult :=
  if negb (isHandlerForLocation h isDirectMessage) then Reject h WRONG_LOCATION
  else if negb (isHandlerForRole h roleNames) then Reject h MISSING_ROLE
  else if negb (matchesContentRegex h content) then Reject h DOESNT_MATCH_REGEX
  else Accept h.

(** A list of identities without its repetitions, each kept at its first
    position. *)
Fixpoint keepFirst (l : list InstanceOrConstructor) : list InstanceOrConstructor :=
  match l with
  | [] => []
  | c :: l' => c :: filter (λ d, d ≠ c) (keepFirst l')
  end.

(** The accepted descriptors of a dispatch, by occurrence and then by
    discovery. *)
Definition acceptedHiocs (event : DiscordEvent) (infos : list HandlerInfo)
  : list HIOC :=
  handler <$> List.filter accepted (infos ≫= (λ i, infoToFilterResults i event)).

(** The rejections of a dispatch, in the same order. *)
Definition rejections (event : DiscordEvent) (infos : list HandlerInfo)
  : list (HIOC * HandlerRejectedReason) :=
  omap isRejection (infos ≫= (λ i, infoToFilterResults i event)).

(** A rejection whose handler configured a text for its reason. *)
Definition vocal (rejection : HIOC * HandlerRejectedReason) : Prop :=
  is_Some (errorText rejection.1 (reasonKey rejection.2)).

(** What a turn of the loop over the accepted handlers records for a
    handler that is not yet completed: the construction of a stateless
    handler, the call of [handle], and the routing of its failure. *)
Definition construction (c : InstanceOrConstructor) : list (Effect Params) :=
  match c with
  | Constructor _ => [New c]
  | Instance _ => []
  end.

Definition failureRouting (h : HIOC) : list (Effect Params) :=
  match handle (ioc h) with
  | None => []
  | Some e =>
      match errorText h (reasonOf e) with
      | Some text => [RejectWithError (ioc h) (mappedError text e)]
      | None => [SentryCapture (ioc h) e; LogHandlerError (ioc h) e]
      end
  end.

Definition handlerTrace (h : HIOC) : list (Effect Params) :=
  construction (ioc h) ++ Handle (ioc h) :: failureRouting h.

(** Every call of [handle] on a stateless handler comes right after the
    construction of its instance. *)
Definition freshlyConstructed (tr : list (Effect Params)) : Prop :=
  ∀ (i : nat) (r : nat),
    tr !! i = Some (Handle (Constructor r)) →
    ∃ j : nat, i = S j ∧ tr !! j = Some (New (Constructor r)).

(** An effect of the second loop: the reply for one of the rejections, with
    the text its handler configured for the reason. *)
Definition replyTo (rs : list (HIOC * HandlerRejectedReason))
    (ev : Effect Params) : Prop :=
  ∃ h reason text,
    (h, reason) ∈ rs ∧ errorText h (reasonKey reason) = Some text
    ∧ ev = RejectWithError (ioc h) (Error text).

(** The handlers of which an instance was constructed, in order. *)
Definition constructions (tr : list (Effect Params)) : list InstanceOrConstructor :=
  omap (λ ev, match ev with New c => Some c | _ => None end) tr.

(** The handler an effect of a dispatch is about. *)
Definition subject (ev : Effect Params) : option InstanceOrConstructor :=
  match ev with
  | New c | Handle c | RejectWithError c _ | SentryCapture c _
  | LogHandlerError c _ => Some c
  | _ => None
  end.

(** A handler registered by its class. *)
Definition stateless (c : InstanceOrConstructor) : bool :=
  match c with
  | Constructor _ => true
  | Instance _ => false
  end.

(** The candidates of a dispatch: what the registry walk finds for each
    occurrence, in order. *)
Definition discovered (event : DiscordEvent) (infos : list HandlerInfo)
  : list HIOC :=
  infos ≫= (λ i, getHandlers (Some (handlers event)) (handlerKeys i)).

(** * Properties *)

(** ** Registry lookup *)

(** The body of the source function, one equation per [return]. *)
Lemma getHandlers_undefined keys : getHandlers None keys = [].
Proof. reflexivity. Qed.

Lemma getHandlers_array hs keys :
  getHandlers (Some (HIOCArray hs)) keys = hs.
Proof. reflexivity. Qed.

Lemma descend_prop (children : list (string * Node)) k restKeys :
  (fix descend (k : string) (o : list (string * Node)) : list HIOC :=
     match o with
     | [] => []
     | (k', child) :: o' =>
         if bool_decide (k' = k) then getHandlersIn child restKeys
         else descend k o'
     end) k children
  = getHandlers (prop k children) restKeys.
Proof.
  induction children as [|[k' child] o' IH]; simpl; [reflexivity|].
  destruct (bool_decide (k' = k)); [reflexivity|exact IH].
Qed.

Lemma getHandlers_tree children keys :
  getHandlers (Some (HIOCTree children)) keys =
    let found := getHandlers (prop "" children) (tail keys) in
    if falsy (head keys) then found
    else found ++ getHandlers (prop (default "" (head keys)) children) (tail keys).
Proof.
  unfold getHandlers at 1. simpl getHandlersIn.
  rewrite !descend_prop.
  destruct keys as [|currentKey restKeys]; simpl; [reflexivity|].
  rewrite descend_prop. reflexivity.
Qed.

Lemma getHandlers_exhausted children :
  getHandlers (Some (HIOCTree children)) [] = getHandlers (prop "" children) [].
Proof. rewrite getHandlers_tree. reflexivity. Qed.

Lemma getHandlers_empty_key children restKeys :
  getHandlers (Some (HIOCTree children)) ("" :: restKeys)
  = getHandlers (prop "" children) restKeys.
Proof. rewrite getHandlers_tree. reflexivity. Qed.

Lemma getHandlers_key children key restKeys :
  key ≠ "" →
  getHandlers (Some (HIOCTree children)) (key :: restKeys)
  = getHandlers (prop "" children) restKeys
    ++ getHandlers (prop key children) restKeys.
Proof.
  intros Hkey. rewrite getHandlers_tree. simpl.
  rewrite bool_decide_eq_false_2 by exact Hkey. reflexivity.
Qed.

Lemma prop_Some_elem {V} k (o : list (string * V)) v :
  prop k o = Some v → (k, v) ∈ o.
Proof.
  induction o as [|[k' v'] o' IH]; simpl; [discriminate|].
  case_bool_decide as Hk.
  - intros [= ->]. subst k'. apply list_elem_of_here.
  - intros H. apply list_elem_of_further, IH, H.
Qed.

(** Induction on a registry tree, with the hypothesis on every child. *)
Lemma Node_children_ind (P : Node → Prop) :
  (∀ hs, P (HIOCArray hs)) →
  (∀ children, Forall (λ kv, P kv.2) children → P (HIOCTree children)) →
  ∀ t, P t.
Proof.
  intros Harr Htree.
  fix IH 1. intros [hs|children].
  - apply Harr.
  - apply Htree. induction children as [|kv children IHc].
    + constructor.
    + constructor; [apply IH|exact IHc].
Qed.

Lemma reachable_sound t keys h :
  reachable t keys h → h ∈ getHandlers (Some t) keys.
Proof.
  induction 1 as [hs keys h Hin|children keys child h Hprop _ IH
                  |children key restKeys child h Hprop _ IH].
  - exact Hin.
  - rewrite getHandlers_tree. simpl. rewrite Hprop.
    destruct (falsy (head keys)); [exact IH|].
    apply elem_of_app. left. exact IH.
  - destruct (decide (key = "")) as [->|Hkey].
    + rewrite getHandlers_empty_key, Hprop. exact IH.
    + rewrite getHandlers_key by exact Hkey. rewrite Hprop.
      apply elem_of_app. right. exact IH.
Qed.

Lemma reachable_complete t : ∀ keys h,
  h ∈ getHandlers (Some t) keys → reachable t keys h.
Proof.
  induction t as [hs|children IH] using Node_children_ind; intros keys h Hin.
  - apply reach_terminal. exact Hin.
  - rewrite Forall_forall in IH.
    assert (Hchild : ∀ k child ks, prop k children = Some child →
              h ∈ getHandlers (prop k children) ks → reachable child ks h).
    { intros k child ks Hprop Hh. rewrite Hprop in Hh.
      apply (IH (k, child)); [apply prop_Some_elem, Hprop|exact Hh]. }
    assert (Hwild : h ∈ getHandlers (prop "" children) (tail keys) →
              reachable (HIOCTree children) keys h).
    { intros Hh. destruct (prop "" children) as [child|] eqn:Hprop.
      - eapply reach_wildcard; [exact Hprop|].
        eapply Hchild; [exact Hprop|]. rewrite Hprop. exact Hh.
      - simpl in Hh. apply elem_of_nil in Hh. destruct Hh. }
    rewrite getHandlers_tree in Hin. simpl in Hin.
    destruct keys as [|key restKeys]; simpl in Hin; [apply Hwild, Hin|].
    case_bool_decide as Hkey; [apply Hwild, Hin|].
    apply elem_of_app in Hin as [Hin|Hin]; [apply Hwild, Hin|].
    destruct (prop key children) as [child|] eqn:Hprop.
    + eapply reach_literal; [exact Hprop|].
      eapply Hchild; [exact Hprop|]. rewrite Hprop. exact Hin.
    + simpl in Hin. apply elem_of_nil in Hin. destruct Hin.
Qed.

(** ** The monad and the loops *)

Ltac eff_unfold :=
  unfold mbind, Eff_mbind, Eff_bind, mret, Eff_mret, Eff_ret, try_catch, emit.

Lemma forOf_cons {A S} (body : A → S → Eff Params S) x xs s tr s' :
  body x s = (tr, inl s') →
  forOf body (x :: xs) s
  = (tr ++ (forOf body xs s').1, (forOf body xs s').2).
Proof.
  intros Hbody. simpl. eff_unfold. rewrite Hbody.
  destruct (forOf body xs s') as [tr' r]. reflexivity.
Qed.

Lemma runAccepted_eq h completedIocs :
  runAccepted h completedIocs =
    if bool_decide (ioc h ∈ completedIocs) then ([], inl completedIocs)
    else (handlerTrace h, inl (completedIocs ++ [ioc h])).
Proof.
  unfold runAccepted, handlerTrace, failureRouting, construction, callHandle.
  case_bool_decide; [reflexivity|].
  destruct (ioc h); destruct (handle _) as [e|]; try reflexivity;
    eff_unfold; simpl; destruct (errorText h (reasonOf e)); reflexivity.
Qed.

Lemma runRejection_eq h reason completedIocs :
  runRejection (h, reason) completedIocs =
    if bool_decide (ioc h ∈ completedIocs) then ([], inl completedIocs)
    else
      match errorText h (reasonKey reason) with
      | None => ([], inl completedIocs)
      | Some text =>
          ([RejectWithError (ioc h) (Error text)], inl (completedIocs ++ [ioc h]))
      end.
Proof.
  unfold runRejection. case_bool_decide; [reflexivity|].
  destruct (errorText h (reasonKey reason)); reflexivity.
Qed.

Lemma accepted_skip h hs completedIocs :
  ioc h ∈ completedIocs →
  forOf runAccepted (h :: hs) completedIocs = forOf runAccepted hs completedIocs.
Proof.
  intros Hin. erewrite forOf_cons.
  2:{ rewrite runAccepted_eq, bool_decide_eq_true_2 by exact Hin. reflexivity. }
  destruct (forOf runAccepted hs completedIocs). reflexivity.
Qed.

Lemma accepted_run h hs completedIocs :
  ioc h ∉ completedIocs →
  forOf runAccepted (h :: hs) completedIocs
  = (handlerTrace h ++ (forOf runAccepted hs (completedIocs ++ [ioc h])).1,
     (forOf runAccepted hs (completedIocs ++ [ioc h])).2).
Proof.
  intros Hin. apply forOf_cons.
  rewrite runAccepted_eq, bool_decide_eq_false_2 by exact Hin. reflexivity.
Qed.

Lemma rejection_skip h reason rs completedIocs :
  ioc h ∈ completedIocs ∨ errorText h (reasonKey reason) = None →
  forOf runRejection ((h, reason) :: rs) completedIocs
  = forOf runRejection rs completedIocs.
Proof.
  intros Hskip. erewrite forOf_cons.
  2:{ rewrite runRejection_eq. case_bool_decide as Hin; [reflexivity|].
      destruct Hskip as [Hc | ->]; [contradiction|reflexivity]. }
  destruct (forOf runRejection rs completedIocs). reflexivity.
Qed.

Lemma rejection_reply h reason rs completedIocs text :
  ioc h ∉ completedIocs →
  errorText h (reasonKey reason) = Some text →
  forOf runRejection ((h, reason) :: rs) completedIocs
  = (RejectWithError (ioc h) (Error text)
       :: (forOf runRejection rs (completedIocs ++ [ioc h])).1,
     (forOf runRejection rs (completedIocs ++ [ioc h])).2).
Proof.
  intros Hin Htext. erewrite forOf_cons.
  2:{ rewrite runRejection_eq, bool_decide_eq_false_2, Htext by exact Hin.
      reflexivity. }
  reflexivity.
Qed.

(** ** Traces of one handler *)

Lemma invocations_app tr1 tr2 :
  invocations (tr1 ++ tr2) = invocations tr1 ++ invocations tr2.
Proof. apply omap_app. Qed.

Lemma replies_app tr1 tr2 : replies (tr1 ++ tr2) = replies tr1 ++ replies tr2.
Proof. apply omap_app. Qed.

Lemma captures_app tr1 tr2 : captures (tr1 ++ tr2) = captures tr1 ++ captures tr2.
Proof. apply omap_app. Qed.

Lemma invocations_handlerTrace h : invocations (handlerTrace h) = [ioc h].
Proof.
  unfold handlerTrace, failureRouting, construction.
  destruct (ioc h); destruct (handle _) as [e|]; try reflexivity;
    destruct (errorText h (reasonOf e)); reflexivity.
Qed.

Lemma replies_handlerTrace h :
  replies (handlerTrace h) = [] ∨ replies (handlerTrace h) = [ioc h].
Proof.
  unfold handlerTrace, failureRouting, construction.
  destruct (ioc h); destruct (handle _) as [e|]; auto;
    destruct (errorText h (reasonOf e)); auto.
Qed.

Lemma freshlyConstructed_nil : freshlyConstructed [].
Proof. intros i r Hi. rewrite lookup_nil in Hi. discriminate. Qed.

Lemma freshlyConstructed_app tr1 tr2 :
  freshlyConstructed tr1 → freshlyConstructed tr2 →
  freshlyConstructed (tr1 ++ tr2).
Proof.
  intros H1 H2 i r Hi.
  destruct (decide (i < length tr1)) as [Hlt|Hge].
  - rewrite lookup_app_l in Hi by exact Hlt.
    destruct (H1 i r Hi) as (j & -> & Hj). exists j. split; [reflexivity|].
    rewrite lookup_app_l by lia. exact Hj.
  - rewrite lookup_app_r in Hi by lia.
    destruct (H2 _ r Hi) as (j & Hij & Hj). exists (length tr1 + j).
    split; [lia|]. rewrite lookup_app_r by lia.
    replace (length tr1 + j - length tr1) with j by lia. exact Hj.
Qed.

Lemma freshlyConstructed_handlerTrace h : freshlyConstructed (handlerTrace h).
Proof.
  intros i r. unfold handlerTrace, failureRouting, construction.
  destruct (ioc h) as [n|n]; destruct (handle _) as [e|];
    try destruct (errorText h (reasonOf e));
    repeat (destruct i as [|i]; simpl; try discriminate);
    intros [= ->]; exists 0; split; reflexivity.
Qed.

(** ** Lists of identities *)

Lemma keepFirst_filter (P : InstanceOrConstructor → Prop)
    `{!∀ c, Decision (P c)} l :
  keepFirst (filter P l) = filter P (keepFirst l).
Proof.
  induction l as [|c l IH]; [reflexivity|]. simpl keepFirst.
  destruct (decide (P c)) as [Hc|Hc].
  - rewrite !filter_cons_True by exact Hc. simpl. f_equal.
    rewrite IH, !list_filter_filter. apply list_filter_iff. tauto.
  - rewrite !filter_cons_False by exact Hc. rewrite IH.
    rewrite list_filter_filter. apply list_filter_iff.
    intros d. split; [|tauto]. intros Hd. split; [exact Hd|congruence].
Qed.

Lemma elem_of_keepFirst c l : c ∈ keepFirst l ↔ c ∈ l.
Proof.
  induction l as [|d l IH]; [reflexivity|]. simpl.
  rewrite !elem_of_cons, list_elem_of_filter, IH.
  destruct (decide (c = d)); tauto.
Qed.

Lemma NoDup_keepFirst l : NoDup (keepFirst l).
Proof.
  induction l as [|c l IH]; simpl; [constructor|].
  constructor; [|apply NoDup_filter, IH].
  rewrite list_elem_of_filter. tauto.
Qed.

Lemma filter_not_completed completedIocs c (l : list InstanceOrConstructor) :
  filter (λ d, d ∉ completedIocs ++ [c]) l
  = filter (λ d, d ≠ c) (filter (λ d, d ∉ completedIocs) l).
Proof.
  rewrite list_filter_filter. apply list_filter_iff. intros d.
  rewrite elem_of_app, list_elem_of_singleton. tauto.
Qed.

(** ** The loop over the accepted handlers *)

Lemma accepted_result hs : ∀ completedIocs,
  (forOf runAccepted hs completedIocs).2
  = inl (completedIocs ++ invocations (forOf runAccepted hs completedIocs).1).
Proof.
  induction hs as [|h hs IH]; intros completedIocs.
  - simpl. rewrite app_nil_r. reflexivity.
  - destruct (decide (ioc h ∈ completedIocs)) as [Hin|Hin].
    + rewrite accepted_skip by exact Hin. apply IH.
    + rewrite accepted_run by exact Hin. simpl.
      rewrite IH, invocations_app, invocations_handlerTrace, <- app_assoc.
      reflexivity.
Qed.

Lemma accepted_invocations hs : ∀ completedIocs,
  invocations (forOf runAccepted hs completedIocs).1
  = keepFirst (filter (λ c, c ∉ completedIocs) (ioc <$> hs)).
Proof.
  induction hs as [|h hs IH]; intros completedIocs; [reflexivity|].
  rewrite fmap_cons.
  destruct (decide (ioc h ∈ completedIocs)) as [Hin|Hin].
  - rewrite accepted_skip by exact Hin.
    rewrite filter_cons_False by (intros Hn; exact (Hn Hin)). apply IH.
  - rewrite accepted_run by exact Hin. simpl fst.
    rewrite invocations_app, invocations_handlerTrace, IH.
    rewrite filter_cons_True by exact Hin. simpl.
    rewrite filter_not_completed, keepFirst_filter. reflexivity.
Qed.

Lemma accepted_fresh hs : ∀ completedIocs,
  freshlyConstructed (forOf runAccepted hs completedIocs).1.
Proof.
  induction hs as [|h hs IH]; intros completedIocs.
  - apply freshlyConstructed_nil.
  - destruct (decide (ioc h ∈ completedIocs)) as [Hin|Hin].
    + rewrite accepted_skip by exact Hin. apply IH.
    + rewrite accepted_run by exact Hin. simpl fst.
      apply freshlyConstructed_app;
        [apply freshlyConstructed_handlerTrace|apply IH].
Qed.

Lemma accepted_replies hs : ∀ completedIocs,
  replies (forOf runAccepted hs completedIocs).1
    `sublist_of` invocations (forOf runAccepted hs completedIocs).1.
Proof.
  induction hs as [|h hs IH]; intros completedIocs.
  - simpl. constructor.
  - destruct (decide (ioc h ∈ completedIocs)) as [Hin|Hin].
    + rewrite accepted_skip by exact Hin. apply IH.
    + rewrite accepted_run by exact Hin. simpl fst.
      rewrite replies_app, invocations_app, invocations_handlerTrace.
      apply sublist_app; [|apply IH].
      destruct (replies_handlerTrace h) as [-> | ->];
        [apply sublist_nil_l|reflexivity].
Qed.

(** ** The loop over the rejections *)

Lemma rejection_result rs : ∀ completedIocs,
  (forOf runRejection rs completedIocs).2
  = inl (completedIocs ++ replies (forOf runRejection rs completedIocs).1).
Proof.
  induction rs as [|[h reason] rs IH]; intros completedIocs.
  - simpl. rewrite app_nil_r. reflexivity.
  - destruct (decide (ioc h ∈ completedIocs)) as [Hin|Hin].
    { rewrite rejection_skip by (left; exact Hin). apply IH. }
    destruct (errorText h (reasonKey reason)) as [text|] eqn:Htext.
    + rewrite (rejection_reply _ _ _ _ text) by assumption. simpl.
      rewrite IH, <- app_assoc. reflexivity.
    + rewrite rejection_skip by (right; exact Htext). apply IH.
Qed.

Lemma rejection_replies rs : ∀ completedIocs,
  replies (forOf runRejection rs completedIocs).1
  = keepFirst (filter (λ c, c ∉ completedIocs)
                 ((λ r, ioc r.1) <$> filter vocal rs)).
Proof.
  induction rs as [|[h reason] rs IH]; intros completedIocs; [reflexivity|].
  destruct (errorText h (reasonKey reason)) as [text|] eqn:Htext.
  - rewrite (filter_cons_True vocal) by (unfold vocal; simpl; rewrite Htext; eauto).
    rewrite fmap_cons. cbn beta. cbn [fst].
    destruct (decide (ioc h ∈ completedIocs)) as [Hin|Hin].
    + rewrite rejection_skip by (left; exact Hin).
      rewrite filter_cons_False by (intros Hn; exact (Hn Hin)). apply IH.
    + rewrite (rejection_reply _ _ _ _ text) by assumption. simpl.
      rewrite IH, filter_cons_True by exact Hin. simpl.
      rewrite filter_not_completed, keepFirst_filter. reflexivity.
  - rewrite rejection_skip by (right; exact Htext).
    rewrite (filter_cons_False vocal).
    + apply IH.
    + unfold vocal. simpl. rewrite Htext. intros [? [=]].
Qed.

Lemma rejection_only_replies rs : ∀ completedIocs,
  Forall (replyTo rs) (forOf runRejection rs completedIocs).1.
Proof.
  induction rs as [|[h reason] rs IH]; intros completedIocs; [constructor|].
  assert (Hrest : ∀ completed',
            Forall (replyTo ((h, reason) :: rs)) (forOf runRejection rs completed').1).
  { intros completed'. eapply Forall_impl; [apply IH|].
    intros ev (h' & reason' & text & Hin & Htext & ->).
    exists h', reason', text. split; [right; exact Hin|]. split; [exact Htext|reflexivity]. }
  destruct (decide (ioc h ∈ completedIocs)) as [Hin|Hin].
  { rewrite rejection_skip by (left; exact Hin). apply Hrest. }
  destruct (errorText h (reasonKey reason)) as [text|] eqn:Htext.
  - rewrite (rejection_reply _ _ _ _ text) by assumption. simpl.
    constructor; [|apply Hrest].
    exists h, reason, text. split; [left|]. split; [exact Htext|reflexivity].
  - rewrite rejection_skip by (right; exact Htext). apply Hrest.
Qed.

(** ** The whole dispatch *)

Lemma handleEvent_eq event infos :
  let trA := (forOf runAccepted (acceptedHiocs event infos) []).1 in
  let trR := (forOf runRejection (rejections event infos) (invocations trA)).1 in
  handleEvent event infos = (trA ++ trR, inl ()).
Proof.
  intros trA trR. unfold handleEvent.
  fold (acceptedHiocs event infos). fold (rejections event infos).
  pose proof (accepted_result (acceptedHiocs event infos) []) as HA.
  simpl app in HA. fold trA in HA.
  destruct (forOf runAccepted (acceptedHiocs event infos) []) as [tA rA] eqn:EA.
  simpl in trA, HA. subst rA.
  eff_unfold.
  pose proof (rejection_result (rejections event infos) (invocations trA)) as HR.
  fold trR in HR.
  destruct (forOf runRejection (rejections event infos) (invocations trA))
    as [tR rR] eqn:ER.
  simpl in trR, HR. subst rR. simpl. rewrite app_nil_r. reflexivity.
Qed.

Lemma invocations_replies_only rs tr : Forall (replyTo rs) tr → invocations tr = [].
Proof.
  induction 1 as [|ev tr (h & reason & text & _ & _ & ->) _ IH]; [reflexivity|].
  exact IH.
Qed.

Lemma captures_replies_only rs tr : Forall (replyTo rs) tr → captures tr = [].
Proof.
  induction 1 as [|ev tr (h & reason & text & _ & _ & ->) _ IH]; [reflexivity|].
  exact IH.
Qed.

Lemma filter_not_nil (l : list InstanceOrConstructor) :
  filter (λ c, c ∉ []) l = l.
Proof.
  induction l as [|c l IH]; [reflexivity|].
  rewrite filter_cons_True by apply not_elem_of_nil. rewrite IH. reflexivity.
Qed.

Lemma handleEvent_invocations event infos :
  invocations (handleEvent event infos).1
  = keepFirst (ioc <$> acceptedHiocs event infos).
Proof.
  rewrite handleEvent_eq. simpl fst. rewrite invocations_app.
  rewrite (invocations_replies_only _ _ (rejection_only_replies _ _)).
  rewrite app_nil_r, accepted_invocations, filter_not_nil. reflexivity.
Qed.

(** ** The filter pipeline *)

Lemma filterHandlers_eq hs isDM roleNames text :
  filterHandlers hs isDM roleNames text
  = firstFailure isDM roleNames text <$> hs.
Proof.
  unfold filterHandlers. rewrite <- !list_fmap_compose.
  apply list_fmap_ext. intros _ h _. unfold firstFailure. simpl.
  destruct (isHandlerForLocation h isDM); simpl; [|reflexivity].
  destruct (isHandlerForRole h roleNames); simpl; [|reflexivity].
  destruct (matchesContentRegex h text); reflexivity.
Qed.

Lemma handler_firstFailure isDM roleNames text h :
  handler (firstFailure isDM roleNames text h) = h.
Proof.
  unfold firstFailure.
  destruct (isHandlerForLocation h isDM); simpl; [|reflexivity].
  destruct (isHandlerForRole h roleNames); simpl; [|reflexivity].
  destruct (matchesContentRegex h text); reflexivity.
Qed.

Lemma handler_filterHandlers hs isDM roleNames text :
  handler <$> filterHandlers hs isDM roleNames text = hs.
Proof.
  rewrite filterHandlers_eq, <- list_fmap_compose.
  rewrite <- (list_fmap_id hs) at 2.
  apply list_fmap_ext. intros _ h _. apply handler_firstFailure.
Qed.

Lemma filter_sublist {A} (f : A → bool) (l : list A) :
  List.filter f l `sublist_of` l.
Proof.
  induction l as [|x l IH]; simpl; [constructor|].
  destruct (f x); [apply sublist_skip|apply sublist_cons]; exact IH.
Qed.

Lemma acceptedHiocs_discovered event infos :
  acceptedHiocs event infos
    `sublist_of` infos ≫= (λ i, getHandlers (Some (handlers event)) (handlerKeys i)).
Proof.
  unfold acceptedHiocs.
  transitivity (handler <$> infos ≫= (λ i, infoToFilterResults i event)).
  { apply fmap_sublist, filter_sublist. }
  induction infos as [|i infos IH]; [constructor|].
  rewrite !bind_cons, fmap_app. apply sublist_app; [|exact IH].
  unfold infoToFilterResults. rewrite handler_filterHandlers. reflexivity.
Qed.

(** ** A wildcard-path handler and an exact-path handler *)

Lemma discovery_wildcard_exact children key restKeys Hw He :
  key ≠ "" →
  prop "" children = Some (HIOCArray [Hw]) →
  prop key children = Some (HIOCArray [He]) →
  getHandlers (Some (HIOCTree children)) (key :: restKeys) = [Hw; He].
Proof.
  intros Hkey Hwild Hexact.
  rewrite getHandlers_key by exact Hkey. rewrite Hwild, Hexact. reflexivity.
Qed.

Lemma dispatch_wildcard_exact event children key restKeys info Hw He :
  handlers event = HIOCTree children →
  key ≠ "" →
  prop "" children = Some (HIOCArray [Hw]) →
  prop key children = Some (HIOCArray [He]) →
  handlerKeys info = key :: restKeys →
  filterHandlers [Hw; He] (isDirectMessage info) (default [] (member info))
    (content info) = [Accept Hw; Accept He] →
  ioc Hw ≠ ioc He →
  invocations (handleEvent event [info]).1 = [ioc Hw; ioc He].
Proof.
  intros Htree Hkey Hwild Hexact Hkeys Hfilter Hne.
  rewrite handleEvent_invocations. unfold acceptedHiocs.
  rewrite bind_singleton. unfold infoToFilterResults.
  rewrite Htree, Hkeys, (discovery_wildcard_exact _ _ _ Hw He) by assumption.
  rewrite Hfilter. simpl.
  rewrite filter_cons_True by (intros Heq; apply Hne; symmetry; exact Heq).
  reflexivity.
Qed.


Lemma freshlyConstructed_replies_only rs tr :
  Forall (replyTo rs) tr → freshlyConstructed tr.
Proof.
  intros Hall i r Hi. rewrite Forall_forall in Hall.
  destruct (Hall _ (list_elem_of_lookup_2 _ _ _ Hi))
    as (h & reason & text & _ & _ & [=]).
Qed.

Lemma errorText_Some h key text :
  errorText h key = Some text
  ↔ ∃ errs, errors (options h) = Some errs ∧ errs !! key = Some text ∧ text ≠ "".
Proof.
  unfold errorText. destruct (errors (options h)) as [errs|]; simpl.
  - unfold truthy_entry. split.
    + intros H. exists errs. destruct (errs !! key) as [t|]; [|discriminate].
      simpl in H. case_bool_decide as Ht; [discriminate|].
      injection H as ->. auto.
    + intros (errs' & [= <-] & -> & Hne). simpl.
      rewrite bool_decide_eq_false_2 by exact Hne. reflexivity.
  - split; [discriminate|]. intros (errs' & [=] & _).
Qed.

Lemma errorText_None h key :
  errorText h key = None
  ↔ ∀ errs, errors (options h) = Some errs →
      errs !! key = None ∨ errs !! key = Some "".
Proof.
  unfold errorText. destruct (errors (options h)) as [errs|]; simpl.
  - unfold truthy_entry. split.
    + intros H errs' [= <-]. destruct (errs !! key) as [t|]; [|auto].
      simpl in H. case_bool_decide as Ht; [|discriminate]. subst t. auto.
    + intros H. destruct (H errs eq_refl) as [-> | ->]; reflexivity.
  - split; [|reflexivity]. intros _ errs' [=].
Qed.

(** ** Order in a list *)









(** ** The wildcard subtree before the exact one, at every level *)




(** ** The recorded walk *)

Lemma descend_reads (children : list (string * Node)) path k restKeys :
  (fix descend (k : string) (o : list (string * Node))
     : list (list string) * list HIOC :=
     match o with
     | [] => ([], [])
     | (k', child) :: o' =>
         if bool_decide (k' = k)
         then getHandlersReads child (path ++ [k]) restKeys
         else descend k o'
     end) k children
  = getHandlersReadsAt (prop k children) (path ++ [k]) restKeys.
Proof.
  induction children as [|[k' child] o' IH]; simpl; [reflexivity|].
  destruct (bool_decide (k' = k)); [reflexivity|exact IH].
Qed.

Lemma getHandlersReads_tree children path keys :
  getHandlersReads (HIOCTree children) path keys =
    let wild := getHandlersReadsAt (prop "" children) (path ++ [""]) (tail keys) in
    if falsy (head keys) then ((path ++ [""]) :: wild.1, wild.2)
    else
      let key := default "" (head keys) in
      let exact := getHandlersReadsAt (prop key children) (path ++ [key]) (tail keys) in
      ((path ++ [""]) :: wild.1 ++ (path ++ [key]) :: exact.1, wild.2 ++ exact.2).
Proof.
  simpl getHandlersReads. rewrite !descend_reads.
  destruct (getHandlersReadsAt (prop "" children) (path ++ [""]) (tail keys))
    as [readsWildcard found].
  destruct keys as [|currentKey restKeys]; simpl; [reflexivity|].
  destruct (bool_decide (currentKey = "")); [reflexivity|].
  rewrite descend_reads.
  destruct (getHandlersReadsAt (prop currentKey children) _ _). reflexivity.
Qed.

(** The recorded walk returns what [getHandlers] returns. *)
Lemma getHandlersReads_result t : ∀ path keys,
  (getHandlersReads t path keys).2 = getHandlers (Some t) keys.
Proof.
  induction t as [hs|children IH] using Node_children_ind; intros path keys.
  - reflexivity.
  - rewrite Forall_forall in IH.
    assert (Hchild : ∀ k p ks,
              (getHandlersReadsAt (prop k children) p ks).2
              = getHandlers (prop k children) ks).
    { intros k p ks. destruct (prop k children) as [child|] eqn:Hprop; [|reflexivity].
      apply (IH (k, child)), prop_Some_elem, Hprop. }
    rewrite getHandlersReads_tree, getHandlers_tree. simpl.
    destruct (falsy (head keys)); simpl; rewrite ?Hchild; reflexivity.
Qed.

(** Every read of a walk is below the node the walk starts at. *)
Lemma getHandlersReads_below t : ∀ path keys p,
  p ∈ (getHandlersReads t path keys).1 → ∃ k more, p = path ++ k :: more.
Proof.
  induction t as [hs|children IH] using Node_children_ind; intros path keys p Hp.
  - simpl in Hp. apply elem_of_nil in Hp. destruct Hp.
  - rewrite Forall_forall in IH.
    assert (Hchild : ∀ k ks,
              p ∈ (getHandlersReadsAt (prop k children) (path ++ [k]) ks).1 →
              ∃ more, p = path ++ k :: more).
    { intros k ks Hin. destruct (prop k children) as [child|] eqn:Hprop.
      - destruct (IH (k, child) (prop_Some_elem _ _ _ Hprop) _ _ _ Hin)
          as (k' & more & ->).
        exists (k' :: more). rewrite <- app_assoc. reflexivity.
      - simpl in Hin. apply elem_of_nil in Hin. destruct Hin. }
    rewrite getHandlersReads_tree in Hp. simpl in Hp.
    destruct (falsy (head keys)); simpl in Hp.
    + apply elem_of_cons in Hp as [-> | Hp]; [exists "", []; reflexivity|].
      destruct (Hchild _ _ Hp) as [more ->]. eauto.
    + apply elem_of_cons in Hp as [-> | Hp]; [exists "", []; reflexivity|].
      apply elem_of_app in Hp as [Hp|Hp].
      { destruct (Hchild _ _ Hp) as [more ->]. eauto. }
      apply elem_of_cons in Hp as [-> | Hp]; [eexists _, []; reflexivity|].
      destruct (Hchild _ _ Hp) as [more ->]. eauto.
Qed.

Lemma getHandlersReadsAt_below o path k keys p :
  p ∈ (getHandlersReadsAt o (path ++ [k]) keys).1 →
  ∃ k' more, p = path ++ k :: k' :: more.
Proof.
  destruct o as [t|]; simpl; intros Hp.
  - destruct (getHandlersReads_below _ _ _ _ Hp) as (k' & more & ->).
    exists k', more. rewrite <- app_assoc. reflexivity.
  - apply elem_of_nil in Hp. destruct Hp.
Qed.

(** No node is read twice in a walk. *)
Lemma getHandlersReads_NoDup t : ∀ path keys,
  NoDup (getHandlersReads t path keys).1.
Proof.
  induction t as [hs|children IH] using Node_children_ind; intros path keys.
  - constructor.
  - rewrite Forall_forall in IH.
    assert (Hchild : ∀ k p ks, NoDup (getHandlersReadsAt (prop k children) p ks).1).
    { intros k p ks. destruct (prop k children) as [child|] eqn:Hprop.
      - apply (IH (k, child)), prop_Some_elem, Hprop.
      - constructor. }
    assert (Hfresh : ∀ k k' ks,
              path ++ [k] ∉ (getHandlersReadsAt (prop k' children) (path ++ [k']) ks).1).
    { intros k k' ks Hin.
      destruct (getHandlersReadsAt_below _ _ _ _ _ Hin) as (k2 & more & Heq).
      apply app_inv_head in Heq. discriminate. }
    rewrite getHandlersReads_tree. simpl.
    destruct (falsy (head keys)) eqn:Hfalsy; simpl.
    + constructor; [apply Hfresh|apply Hchild].
    + destruct keys as [|key restKeys]; [discriminate|]. simpl in *.
      apply bool_decide_eq_false in Hfalsy.
      constructor.
      * intros [Hin|Hin]%elem_of_app; [exact (Hfresh _ _ _ Hin)|].
        apply elem_of_cons in Hin as [Heq|Hin]; [|exact (Hfresh _ _ _ Hin)].
        apply app_inv_head in Heq. congruence.
      * apply NoDup_app. split; [apply Hchild|]. split; [|constructor;
          [apply Hfresh|apply Hchild]].
        intros p Hw He.
        destruct (getHandlersReadsAt_below _ _ _ _ _ Hw) as (k1 & m1 & ->).
        apply elem_of_cons in He as [Heq|He].
        { apply app_inv_head in Heq. discriminate. }
        destruct (getHandlersReadsAt_below _ _ _ _ _ He) as (k2 & m2 & Heq).
        apply app_inv_head in Heq. congruence.
Qed.

(** * The claims *)


(** C2.  Registry lookup is a fan-out union: the result of [getHandlers]
    holds exactly the descriptors reachable by descending, at each key
    segment, the subtree keyed by the literal segment and the subtree keyed
    by the wildcard; and for a registry holding a wildcard-path handler H1
    and an exact-path handler H2 under one event, an occurrence matching
    H2's path finds both and invokes each exactly once. *)
Theorem C2_lookup_is_fan_out_union event children key restKeys info H1 H2 :
  handlers event = HIOCTree children →
  key ≠ "" →
  prop "" children = Some (HIOCArray [H1]) →
  prop key children = Some (HIOCArray [H2]) →
  handlerKeys info = key :: restKeys →
  filterHandlers [H1; H2] (isDirectMessage info) (default [] (member info))
    (content info) = [Accept H1; Accept H2] →
  ioc H1 ≠ ioc H2 →
  (∀ t keys h, h ∈ getHandlers (Some t) keys ↔ reachable t keys h)
  ∧ getHandlers (Some (handlers event)) (handlerKeys info) = [H1; H2]
  ∧ invocations (handleEvent event [info]).1 = [ioc H1; ioc H2].
Proof.
  intros Htree Hkey Hwild Hexact Hkeys Hfilter Hne.
  split.
  { intros t keys h. split; [apply reachable_complete|apply reachable_sound]. }
  split.
  { rewrite Htree, Hkeys. apply discovery_wildcard_exact; assumption. }
  eapply dispatch_wildcard_exact; eassumption.
Qed.

(** C3.  When the key path has run out before a terminal is reached, the
    lookup continues into the wildcard branch only; and when the current
    key segment is the empty string, the wildcard child is read and
    descended exactly once.  In both cases the walk reads the wildcard
    child, then makes the reads of the single descent into it and no other
    read, and it returns exactly what that descent returns, so a descriptor
    reached through the wildcard child is not returned twice; a terminal
    under the wildcard gives its descriptors as they are.  In no walk is a
    node read twice. *)
Theorem C3_wildcard_child_read_once children path restKeys :
  (getHandlersReads (HIOCTree children) path []
   = ((path ++ [""])
        :: (getHandlersReadsAt (prop "" children) (path ++ [""]) []).1,
      getHandlers (prop "" children) [])
   ∧ getHandlers (Some (HIOCTree children)) []
     = getHandlers (prop "" children) [])
  ∧ (getHandlersReads (HIOCTree children) path ("" :: restKeys)
     = ((path ++ [""])
          :: (getHandlersReadsAt (prop "" children) (path ++ [""]) restKeys).1,
        getHandlers (prop "" children) restKeys)
     ∧ getHandlers (Some (HIOCTree children)) ("" :: restKeys)
       = getHandlers (prop "" children) restKeys)
  ∧ (∀ t keys, NoDup (getHandlersReads t path keys).1
               ∧ (getHandlersReads t path keys).2 = getHandlers (Some t) keys)
  ∧ (∀ hs, prop "" children = Some (HIOCArray hs) →
           getHandlers (Some (HIOCTree children)) [] = hs
           ∧ getHandlers (Some (HIOCTree children)) ("" :: restKeys) = hs
           ∧ (getHandlersReads (HIOCTree children) path ("" :: restKeys)).1
             = [path ++ [""]]).
Proof.
  assert (Hresult : ∀ ks,
            (getHandlersReadsAt (prop "" children) (path ++ [""]) ks).2
            = getHandlers (prop "" children) ks).
  { intros ks. destruct (prop "" children) as [child|]; [|reflexivity].
    apply getHandlersReads_result. }
  split; [|split; [|split]].
  - split; [|apply getHandlers_exhausted].
    rewrite getHandlersReads_tree. simpl. rewrite Hresult. reflexivity.
  - split; [|apply getHandlers_empty_key].
    rewrite getHandlersReads_tree. simpl. rewrite Hresult. reflexivity.
  - intros t keys.
    split; [apply getHandlersReads_NoDup|apply getHandlersReads_result].
  - intros hs Hleaf.
    rewrite getHandlers_exhausted, getHandlers_empty_key, getHandlersReads_tree.
    simpl. rewrite Hleaf. auto.
Qed.

(** C4.  The filter pipeline reports, for each candidate, the first stage
    that fails in the order location, role, content pattern; it gives one
    result per candidate, in the order of the candidates; a candidate that
    fails both the location and the role stage is rejected for its
    location. *)
Theorem C4_first_failed_stage hs isDM roleNames text :
  filterHandlers hs isDM roleNames text = firstFailure isDM roleNames text <$> hs
  ∧ length (filterHandlers hs isDM roleNames text) = length hs
  ∧ handler <$> filterHandlers hs isDM roleNames text = hs
  ∧ (∀ i h, hs !! i = Some h →
       isHandlerForLocation h isDM = false →
       isHandlerForRole h roleNames = false →
       filterHandlers hs isDM roleNames text !! i = Some (Reject h WRONG_LOCATION)).
Proof.
  split; [apply filterHandlers_eq|].
  split; [rewrite filterHandlers_eq; apply length_fmap|].
  split; [apply handler_filterHandlers|].
  intros i h Hi Hloc _.
  rewrite filterHandlers_eq, list_lookup_fmap, Hi. simpl.
  unfold firstFailure. rewrite Hloc. reflexivity.
Qed.

(** C5.  The accepted handlers are executed in discovery order, each
    handler identity at most once in a dispatch, whatever the number of
    occurrences and key paths that matched it; and every call of [handle]
    on a constructor-registered handler comes right after the construction
    of a fresh instance. *)
Theorem C5_each_identity_once event infos :
  invocations (handleEvent event infos).1
  = keepFirst (ioc <$> acceptedHiocs event infos)
  ∧ NoDup (invocations (handleEvent event infos).1)
  ∧ (∀ c, c ∈ invocations (handleEvent event infos).1
          ↔ c ∈ ioc <$> acceptedHiocs event infos)
  ∧ freshlyConstructed (handleEvent event infos).1.
Proof.
  rewrite handleEvent_invocations.
  split; [reflexivity|].
  split; [apply NoDup_keepFirst|].
  split; [intros c; apply elem_of_keepFirst|].
  rewrite handleEvent_eq. simpl fst.
  apply freshlyConstructed_app; [apply accepted_fresh|].
  eapply freshlyConstructed_replies_only, rejection_only_replies.
Qed.


(** C7 (amended).  The rejected filter results are processed strictly
    after all the accepted handlers have completed.  A rejection makes a
    reply if and only if its handler's identity is not yet completed (it
    has neither been executed nor already been replied to in this dispatch)
    and the handler's error-message map has a non-empty text for the
    rejection's reason; the other rejections make no reply and no
    telemetry. *)
Theorem C7_rejections_after_accepted event infos :
  ∃ trA trR,
    handleEvent event infos = (trA ++ trR, inl ())
    ∧ forOf runAccepted (acceptedHiocs event infos) []
      = (trA, inl (invocations trA))
    ∧ forOf runRejection (rejections event infos) (invocations trA)
      = (trR, inl (invocations trA ++ replies trR))
    ∧ Forall (replyTo (rejections event infos)) trR
    ∧ invocations trR = [] ∧ captures trR = []
    ∧ replies trR
      = keepFirst (filter (λ c, c ∉ invocations trA)
                     ((λ r, ioc r.1) <$> filter vocal (rejections event infos)))
    ∧ (∀ h reason completedIocs,
         (runRejection (h, reason) completedIocs).1 ≠ []
         ↔ (ioc h ∉ completedIocs)
           ∧ (∃ errs text, errors (options h) = Some errs
                ∧ errs !! reasonKey reason = Some text ∧ text ≠ "")).
Proof.
  exists (forOf runAccepted (acceptedHiocs event infos) []).1.
  exists (forOf runRejection (rejections event infos)
            (invocations (forOf runAccepted (acceptedHiocs event infos) []).1)).1.
  split; [apply handleEvent_eq|].
  split.
  { rewrite (surjective_pairing (forOf runAccepted _ _)) at 1.
    rewrite accepted_result. reflexivity. }
  split.
  { rewrite (surjective_pairing (forOf runRejection _ _)) at 1.
    rewrite rejection_result. reflexivity. }
  split; [apply rejection_only_replies|].
  split; [eapply invocations_replies_only, rejection_only_replies|].
  split; [eapply captures_replies_only, rejection_only_replies|].
  split; [apply rejection_replies|].
  intros h reason completedIocs. rewrite runRejection_eq.
  case_bool_decide as Hin; simpl.
  { split; [congruence|]. intros [Hn _]. contradiction. }
  destruct (errorText h (reasonKey reason)) as [text|] eqn:Htext; simpl.
  - apply errorText_Some in Htext as (errs & Herrs & Hkey & Hne).
    split; [|discriminate]. intros _. split; [exact Hin|]. eauto.
  - split; [congruence|]. intros (_ & errs & text & Herrs & Hkey & Hne).
    assert (errorText h (reasonKey reason) = Some text) as Hsome
      by (apply errorText_Some; eauto).
    congruence.
Qed.

(** C8 (what the code does).  When the key path of an autocomplete request
    resolves to no slash-command descriptor, [handleAutocomplete] logs a
    warning and returns: the platform's [respond] is not called.  The same
    holds when the resolved descriptor has no option of the focused name,
    or that option declares no autocomplete callback. *)
Theorem C8_routing_miss_is_not_answered interaction :
  (getHandlers (Some (handlers SLASH_COMMAND)) (slashCommandHandlerKeys interaction)
   = [] →
   handleAutocomplete interaction
   = ([WarnNoHandler (slashCommandHandlerKeys interaction)], inl ()))
  ∧ (∀ h hs,
       getHandlers (Some (handlers SLASH_COMMAND)) (slashCommandHandlerKeys interaction)
       = h :: hs →
       maybeAutocompleteOption h (focusedName interaction) ≫= autocomplete
       = None →
       handleAutocomplete interaction
       = ([WarnNoOption (ioc h) (focusedName interaction)], inl ())).
Proof.
  unfold handleAutocomplete. split.
  - intros ->. reflexivity.
  - intros h hs -> Hnone. simpl. rewrite Hnone. reflexivity.
Qed.

(** C9.  When the autocomplete callback of the resolved option throws, the
    router logs the error and answers the platform with the empty list, and
    the request completes normally: the failure does not propagate.  When
    the callback returns, the platform receives the callback's choices. *)
Theorem C9_autocomplete_failure_is_contained interaction h hs opts o callback :
  getHandlers (Some (handlers SLASH_COMMAND)) (slashCommandHandlerKeys interaction)
  = h :: hs →
  slashOptions (options h) = Some opts →
  List.find (λ o, bool_decide (name o = focusedName interaction)) opts = Some o →
  autocomplete o = Some callback →
  (∀ e, callback (focusedValue interaction) = inr e →
     handleAutocomplete interaction
     = ([Autocomplete (focusedName interaction) (focusedValue interaction);
         LogAutocompleteError e; Respond []], inl ()))
  ∧ (∀ choices, callback (focusedValue interaction) = inl choices →
       handleAutocomplete interaction
       = ([Autocomplete (focusedName interaction) (focusedValue interaction);
           Respond choices], inl ())).
Proof.
  intros Hfound Hopts Hfind Hcallback.
  unfold handleAutocomplete, maybeAutocompleteOption.
  rewrite Hfound, Hopts. simpl. rewrite Hfind. simpl. rewrite Hcallback.
  unfold callAutocomplete. eff_unfold.
  split; intros r Hr; rewrite Hr; reflexivity.
Qed.

(** C10.  In a dispatch at most one reply is made per handler identity:
    a rejection whose handler is already completed makes no reply, and a
    rejection that makes a reply adds its handler's identity to the
    completed ones, so a later rejection of the same handler is silent. *)
Theorem C10_one_reply_per_identity event infos :
  NoDup (replies (handleEvent event infos).1)
  ∧ (∀ h reason completedIocs,
       ioc h ∈ completedIocs →
       runRejection (h, reason) completedIocs = ([], inl completedIocs))
  ∧ (∀ h reason completedIocs,
       (runRejection (h, reason) completedIocs).1 ≠ [] →
       (runRejection (h, reason) completedIocs).2
       = inl (completedIocs ++ [ioc h])).
Proof.
  split; [|split].
  - rewrite handleEvent_eq. simpl fst. rewrite replies_app.
    apply NoDup_app. split; [|split].
    + eapply sublist_NoDup; [|apply accepted_replies].
      rewrite accepted_invocations. apply NoDup_keepFirst.
    + intros c Hc. rewrite rejection_replies, elem_of_keepFirst.
      rewrite list_elem_of_filter. intros [Hn _]. apply Hn.
      eapply elem_of_sublist; [exact Hc|apply accepted_replies].
    + rewrite rejection_replies. apply NoDup_keepFirst.
  - intros h reason completedIocs Hin.
    rewrite runRejection_eq, bool_decide_eq_true_2 by exact Hin. reflexivity.
  - intros h reason completedIocs. rewrite runRejection_eq.
    case_bool_decide; simpl; [congruence|].
    destruct (errorText h (reasonKey reason)); simpl; congruence.
Qed.

(** * Further properties of the filter pipeline *)

Lemma firstFailure_Accept isDM roleNames text h h' :
  firstFailure isDM roleNames text h = Accept h'
  ↔ h' = h ∧ isHandlerForLocation h isDM = true
    ∧ isHandlerForRole h roleNames = true
    ∧ matchesContentRegex h text = true.
Proof.
  unfold firstFailure.
  destruct (isHandlerForLocation h isDM), (isHandlerForRole h roleNames),
    (matchesContentRegex h text); simpl; split;
    try discriminate; try (intros (_ & ? & ? & ?); discriminate).
  - intros [= ->]. auto.
  - intros (-> & _). reflexivity.
Qed.

Lemma isHandlerForRole_mono h (roleNames roleNames' : list string) :
  roleNames ⊆ roleNames' →
  isHandlerForRole h roleNames = true → isHandlerForRole h roleNames' = true.
Proof.
  intros Hsub. unfold isHandlerForRole.
  destruct (negb (isMessageRelated (options h))); [reflexivity|].
  destruct (allowedRoles (options h)) as [allowed|]; [|reflexivity].
  rewrite !orb_true_iff, !existsb_exists.
  intros [Hempty|(role & Hin & Hrole)]; [left; exact Hempty|].
  right. exists role. split; [exact Hin|].
  apply bool_decide_eq_true. apply bool_decide_eq_true in Hrole.
  apply Hsub, Hrole.
Qed.

(** X3.  The constraints of a handler whose options are not message
    related are never looked at: such handlers are accepted for every
    occurrence, whatever their location, roles and pattern. *)
Theorem X3_unrelated_options_always_pass hs isDM roleNames text :
  (∀ h, h ∈ hs → isMessageRelated (options h) = false) →
  filterHandlers hs isDM roleNames text = Accept <$> hs.
Proof.
  intros Hunrelated. rewrite filterHandlers_eq.
  apply list_fmap_ext. intros i h Hi.
  pose proof (Hunrelated h (list_elem_of_lookup_2 _ _ _ Hi)) as Hh.
  unfold firstFailure, isHandlerForLocation, isHandlerForRole, matchesContentRegex.
  rewrite Hh. reflexivity.
Qed.

(** X4.  Acceptance grows with the member's roles: a candidate accepted
    for an occurrence stays accepted, at the same position, when the
    occurrence's member has more roles. *)
Theorem X4_more_roles_keep_acceptance hs isDM (roleNames roleNames' : list string)
    text i h :
  roleNames ⊆ roleNames' →
  filterHandlers hs isDM roleNames text !! i = Some (Accept h) →
  filterHandlers hs isDM roleNames' text !! i = Some (Accept h).
Proof.
  intros Hsub. rewrite !filterHandlers_eq, !list_lookup_fmap.
  destruct (hs !! i) as [h0|]; simpl; [|discriminate].
  intros [= Hacc]. f_equal.
  apply firstFailure_Accept in Hacc as (-> & Hloc & Hrole & Hregex).
  apply firstFailure_Accept. repeat split; try assumption.
  eapply isHandlerForRole_mono; eassumption.
Qed.

(** X5.  A candidate whose options are message related and hold no
    location when the filter runs is rejected for every occurrence, and so
    is one whose options hold a content pattern when the occurrence has no
    content. *)
Theorem X5_missing_location_or_content_rejects hs isDM roleNames text i h :
  hs !! i = Some h →
  isMessageRelated (options h) = true →
  location (options h) = None
  ∨ (is_Some (contentRegex (options h)) ∧ text = None) →
  ∃ reason,
    filterHandlers hs isDM roleNames text !! i = Some (Reject h reason).
Proof.
  intros Hi Hrelated Hedge.
  rewrite filterHandlers_eq, list_lookup_fmap, Hi. simpl.
  unfold firstFailure, isHandlerForLocation, matchesContentRegex.
  rewrite Hrelated. simpl.
  destruct Hedge as [-> | [[regex ->] ->]]; simpl; [eauto|].
  destruct (location (options h)) as [[]|]; simpl;
    try destruct isDM; simpl;
    destruct (isHandlerForRole h roleNames); simpl; eauto.
Qed.

(** * Further properties of the dispatcher *)

Lemma handler_filterResults event infos :
  handler <$> (infos ≫= (λ i, infoToFilterResults i event))
  = discovered event infos.
Proof.
  unfold discovered. induction infos as [|i infos IH]; [reflexivity|].
  rewrite !bind_cons, fmap_app, IH.
  unfold infoToFilterResults at 1. rewrite handler_filterHandlers. reflexivity.
Qed.

Lemma accepted_rejected_partition (rs : list FilterResult) :
  (handler <$> List.filter accepted rs) ++ (omap isRejection rs).*1
  ≡ₚ handler <$> rs.
Proof.
  induction rs as [|[h|h reason] rs IH]; simpl.
  - reflexivity.
  - constructor. exact IH.
  - rewrite <- Permutation_middle. constructor. exact IH.
Qed.

Lemma rejection_is_discovered event infos h reason :
  (h, reason) ∈ rejections event infos → h ∈ discovered event infos.
Proof.
  intros Hin. rewrite <- handler_filterResults.
  apply list_elem_of_omap in Hin as (r & Hr & Hrej).
  destruct r as [h'|h' reason']; [discriminate|]. injection Hrej as -> ->.
  apply list_elem_of_fmap. exists (Reject h reason). split; [reflexivity|exact Hr].
Qed.

Lemma accepted_is_discovered event infos h :
  h ∈ acceptedHiocs event infos → h ∈ discovered event infos.
Proof.
  intros Hin. eapply elem_of_sublist; [exact Hin|].
  apply acceptedHiocs_discovered.
Qed.

Lemma constructions_app tr1 tr2 :
  constructions (tr1 ++ tr2) = constructions tr1 ++ constructions tr2.
Proof. apply omap_app. Qed.

(** What the turn of one handler leaves in the trace: nothing but its call
    when [handle] returns, and one reply or one capture when it throws. *)
Lemma handlerTrace_outcome h :
  (handle (ioc h) = None
   ∧ replies (handlerTrace h) = [] ∧ captures (handlerTrace h) = [])
  ∨ (is_Some (handle (ioc h))
     ∧ ((replies (handlerTrace h) = [ioc h] ∧ captures (handlerTrace h) = [])
        ∨ (replies (handlerTrace h) = [] ∧ captures (handlerTrace h) = [ioc h]))).
Proof.
  unfold handlerTrace, failureRouting, construction.
  destruct (handle (ioc h)) as [e|] eqn:He.
  - right. split; [eauto|].
    destruct (errorText h (reasonOf e)); destruct (ioc h); auto.
  - left. destruct (ioc h); auto.
Qed.

Lemma constructions_handlerTrace h :
  constructions (handlerTrace h) = List.filter stateless [ioc h].
Proof.
  unfold handlerTrace, failureRouting, construction.
  destruct (ioc h); destruct (handle _) as [e|]; try reflexivity;
    destruct (errorText h (reasonOf e)); reflexivity.
Qed.

Lemma subject_handlerTrace h :
  Forall (λ ev, subject ev = Some (ioc h)) (handlerTrace h).
Proof.
  unfold handlerTrace, failureRouting, construction.
  destruct (ioc h); destruct (handle _) as [e|];
    try destruct (errorText h (reasonOf e)); repeat constructor.
Qed.

Lemma accepted_not_completed hs completedIocs c :
  c ∈ invocations (forOf runAccepted hs completedIocs).1 → c ∉ completedIocs.
Proof.
  rewrite accepted_invocations, elem_of_keepFirst, list_elem_of_filter.
  intros [Hn _]. exact Hn.
Qed.

Lemma accepted_outcomes hs : ∀ completedIocs c,
  (c ∈ replies (forOf runAccepted hs completedIocs).1 → is_Some (handle c))
  ∧ (c ∈ captures (forOf runAccepted hs completedIocs).1 →
     c ∈ invocations (forOf runAccepted hs completedIocs).1
     ∧ is_Some (handle c)
     ∧ c ∉ replies (forOf runAccepted hs completedIocs).1).
Proof.
  induction hs as [|h hs IH]; intros completedIocs c.
  { simpl. split; intros Hc; apply elem_of_nil in Hc; destruct Hc. }
  destruct (decide (ioc h ∈ completedIocs)) as [Hin|Hin].
  { rewrite accepted_skip by exact Hin. apply IH. }
  rewrite accepted_run by exact Hin. simpl fst.
  rewrite replies_app, captures_app, invocations_app, invocations_handlerTrace.
  specialize (IH (completedIocs ++ [ioc h]) c) as [IHr IHc].
  assert (Hlater : c ∈ invocations (forOf runAccepted hs (completedIocs ++ [ioc h])).1
                   → c ≠ ioc h).
  { intros Hc ->. apply accepted_not_completed in Hc. apply Hc.
    apply elem_of_app. right. apply list_elem_of_singleton. reflexivity. }
  assert (Hreplied : c ∈ replies (forOf runAccepted hs (completedIocs ++ [ioc h])).1
                     → c ≠ ioc h).
  { intros Hc. apply Hlater. eapply elem_of_sublist; [exact Hc|].
    apply accepted_replies. }
  destruct (handlerTrace_outcome h) as [(Hnone & -> & ->)|[Hsome [[-> ->]|[-> ->]]]];
    simpl; rewrite ?elem_of_cons.
  - split; [exact IHr|]. intros Hc. destruct (IHc Hc) as (Hi & Hh & Hr). auto.
  - split.
    + intros [-> | Hc]; [exact Hsome|apply IHr, Hc].
    + intros Hc. destruct (IHc Hc) as (Hi & Hh & Hr).
      split; [auto|]. split; [exact Hh|].
      intros [Heq|Hr']; [exact (Hlater Hi Heq)|exact (Hr Hr')].
  - split; [exact IHr|].
    intros [-> | Hc].
    + split; [auto|]. split; [exact Hsome|].
      intros Hr. exact (Hreplied Hr eq_refl).
    + destruct (IHc Hc) as (Hi & Hh & Hr). auto.
Qed.

Lemma accepted_constructions hs : ∀ completedIocs,
  constructions (forOf runAccepted hs completedIocs).1
  = List.filter stateless (invocations (forOf runAccepted hs completedIocs).1).
Proof.
  induction hs as [|h hs IH]; intros completedIocs; [reflexivity|].
  destruct (decide (ioc h ∈ completedIocs)) as [Hin|Hin].
  - rewrite accepted_skip by exact Hin. apply IH.
  - rewrite accepted_run by exact Hin. simpl fst.
    rewrite constructions_app, invocations_app, List.filter_app.
    rewrite invocations_handlerTrace, constructions_handlerTrace, IH.
    reflexivity.
Qed.

Lemma accepted_subjects hs : ∀ completedIocs,
  Forall (λ ev, ∃ h, h ∈ hs ∧ subject ev = Some (ioc h))
    (forOf runAccepted hs completedIocs).1.
Proof.
  induction hs as [|h hs IH]; intros completedIocs; [constructor|].
  assert (Hrest : ∀ completed',
            Forall (λ ev, ∃ h', h' ∈ h :: hs ∧ subject ev = Some (ioc h'))
              (forOf runAccepted hs completed').1).
  { intros completed'. eapply Forall_impl; [apply IH|].
    intros ev (h' & Hin & Hs). exists h'. split; [right; exact Hin|exact Hs]. }
  destruct (decide (ioc h ∈ completedIocs)) as [Hin|Hin].
  - rewrite accepted_skip by exact Hin. apply Hrest.
  - rewrite accepted_run by exact Hin. simpl fst.
    apply Forall_app. split; [|apply Hrest].
    eapply Forall_impl; [apply subject_handlerTrace|].
    intros ev Hs. exists h. split; [left|exact Hs].
Qed.

Lemma constructions_replies_only rs tr :
  Forall (replyTo rs) tr → constructions tr = [].
Proof.
  induction 1 as [|ev tr (h & reason & text & _ & _ & ->) _ IH]; [reflexivity|].
  exact IH.
Qed.

(** Every effect of a dispatch is about a discovered candidate. *)
Lemma handleEvent_subjects event infos :
  Forall (λ ev, ∃ h, h ∈ discovered event infos ∧ subject ev = Some (ioc h))
    (handleEvent event infos).1.
Proof.
  rewrite handleEvent_eq. simpl fst. apply Forall_app. split.
  - eapply Forall_impl; [apply accepted_subjects|].
    intros ev (h & Hin & Hs). exists h.
    split; [apply accepted_is_discovered, Hin|exact Hs].
  - eapply Forall_impl; [apply rejection_only_replies|].
    intros ev (h & reason & text & Hin & _ & ->). exists h.
    split; [eapply rejection_is_discovered, Hin|reflexivity].
Qed.

Lemma accepted_constructions_of_dispatch event infos :
  constructions (handleEvent event infos).1
  = List.filter stateless (invocations (handleEvent event infos).1).
Proof.
  rewrite handleEvent_eq. simpl fst.
  rewrite constructions_app, invocations_app.
  rewrite (constructions_replies_only _ _ (rejection_only_replies _ _)).
  rewrite (invocations_replies_only _ _ (rejection_only_replies _ _)).
  rewrite !app_nil_r. apply accepted_constructions.
Qed.

(** X6.  Every candidate of a dispatch is either accepted or rejected, and
    not both: the accepted descriptors together with the rejected ones are
    the discovered candidates, up to order. *)
Theorem X6_accepted_and_rejected_partition event infos :
  acceptedHiocs event infos ++ (rejections event infos).*1
  ≡ₚ discovered event infos.
Proof.
  unfold acceptedHiocs, rejections.
  rewrite accepted_rejected_partition. rewrite handler_filterResults.
  reflexivity.
Qed.

(** X9.  Telemetry is for failures that are not replied to: a handler
    whose failure was captured was invoked, its [handle] threw, and no
    reply was made on its behalf in the dispatch. *)
Theorem X9_captured_means_thrown_and_not_replied event infos c :
  c ∈ captures (handleEvent event infos).1 →
  c ∈ invocations (handleEvent event infos).1
  ∧ is_Some (handle c)
  ∧ c ∉ replies (handleEvent event infos).1.
Proof.
  rewrite handleEvent_eq. simpl fst.
  rewrite captures_app, invocations_app, replies_app.
  rewrite (captures_replies_only _ _ (rejection_only_replies _ _)), app_nil_r.
  intros Hc.
  destruct (proj2 (accepted_outcomes _ _ _) Hc) as (Hi & Hh & Hr).
  split; [apply elem_of_app; left; exact Hi|]. split; [exact Hh|].
  intros [Hr'|Hr']%elem_of_app; [exact (Hr Hr')|].
  rewrite rejection_replies, elem_of_keepFirst, list_elem_of_filter in Hr'.
  destruct Hr' as [Hn _]. exact (Hn Hi).
Qed.

(** X10.  A handler that is accepted for some occurrence and whose [handle]
    returns normally causes no reply, even when other occurrences of the
    dispatch reject it with a configured text. *)
Theorem X10_accepted_and_returning_is_not_replied event infos h :
  h ∈ acceptedHiocs event infos →
  handle (ioc h) = None →
  ioc h ∉ replies (handleEvent event infos).1.
Proof.
  intros Hacc Hquiet. rewrite handleEvent_eq. simpl fst. rewrite replies_app.
  intros [Hr|Hr]%elem_of_app.
  - apply (proj1 (accepted_outcomes _ _ _)) in Hr.
    rewrite Hquiet in Hr. destruct Hr as [e [=]].
  - rewrite rejection_replies, elem_of_keepFirst, list_elem_of_filter in Hr.
    destruct Hr as [Hn _]. apply Hn.
    rewrite accepted_invocations, filter_not_nil, elem_of_keepFirst.
    apply list_elem_of_fmap_2, Hacc.
Qed.

(** X11.  The instances constructed in a dispatch are those of the
    constructor-registered handlers that are invoked, once each and in the
    order of the invocations: a shared instance is never constructed again,
    and a handler that is only rejected is not constructed. *)
Theorem X11_constructions_are_stateless_invocations event infos :
  constructions (handleEvent event infos).1
  = List.filter stateless (invocations (handleEvent event infos).1)
  ∧ NoDup (constructions (handleEvent event infos).1)
  ∧ (∀ h, h ∈ acceptedHiocs event infos → stateless (ioc h) = true →
          ioc h ∈ constructions (handleEvent event infos).1)
  ∧ (∀ c, c ∈ constructions (handleEvent event infos).1 →
          stateless c = true ∧ c ∈ ioc <$> acceptedHiocs event infos).
Proof.
  rewrite accepted_constructions_of_dispatch, handleEvent_invocations.
  split; [reflexivity|]. split; [|split].
  - apply NoDup_ListNoDup, List.NoDup_filter, NoDup_ListNoDup, NoDup_keepFirst.
  - intros h Hacc Hst. apply list_elem_of_In, filter_In.
    split; [|exact Hst]. apply list_elem_of_In, elem_of_keepFirst.
    apply list_elem_of_fmap_2, Hacc.
  - intros c Hc. apply list_elem_of_In, filter_In in Hc as [Hc Hst].
    split; [exact Hst|]. apply list_elem_of_In in Hc.
    apply (proj1 (elem_of_keepFirst _ _)) in Hc. exact Hc.
Qed.

(** X12.  A dispatch only touches the handlers its occurrences find in the
    tree of its own event: every effect (construction, call, reply,
    capture, log) is about a descriptor that the lookup of some occurrence
    returns, and a dispatch never answers or warns the platform. *)
Theorem X12_effects_concern_found_handlers event infos ev :
  ev ∈ (handleEvent event infos).1 →
  ∃ h info,
    info ∈ infos
    ∧ h ∈ getHandlers (Some (handlers event)) (handlerKeys info)
    ∧ subject ev = Some (ioc h).
Proof.
  intros Hev.
  pose proof (handleEvent_subjects event infos) as Hall.
  rewrite Forall_forall in Hall.
  destruct (Hall ev Hev) as (h & Hfound & Hs).
  apply list_elem_of_bind in Hfound as (info & Hh & Hinfo).
  exists h, info. auto.
Qed.

End EventDistribution.

(** * The claims on a concrete registry *)

Module Demo.

(** The structured parameters of an [ErrorWithParams]. *)
Definition Params : Type := list (string * string).

(** The events whose options carry a location, roles and a content
    pattern, for the examples. *)
Definition messageRelated (o : EventHandlerOptions Params) : bool :=
  match event o with
  | MESSAGE | REACTION_ADD | REACTION_REMOVE => true
  | _ => false
  end.

Definition reasonName (reason : HandlerRejectedReason) : string :=
  match reason with
  | WRONG_LOCATION => "WRONG_LOCATION"
  | MISSING_ROLE => "MISSING_ROLE"
  | DOESNT_MATCH_REGEX => "DOESNT_MATCH_REGEX"
  end.

Definition messageOptions (where_ : EventLocation)
    (roles : option (list string)) (errs : option (gmap string string))
  : EventHandlerOptions Params :=
  {| event := MESSAGE; location := Some where_; allowedRoles := roles;
     contentRegex := None; errors := errs; slashOptions := None |}.

(** A singleton registered for every channel and a stateless handler
    registered for the channel "general". *)
Definition everywhere : HIOC Params :=
  {| ioc := Instance 1; options := messageOptions ANYWHERE None None |}.

Definition inGeneral : HIOC Params :=
  {| ioc := Constructor 2; options := messageOptions ANYWHERE None None |}.

Definition channels : list (string * StringIndexedHIOCTreeNode Params) :=
  [("", HIOCArray [everywhere]); ("general", HIOCArray [inGeneral])].

Definition registry (e : DiscordEvent) : StringIndexedHIOCTreeNode Params :=
  match e with
  | MESSAGE => HIOCTree channels
  | _ => HIOCTree []
  end.

Definition quiet (c : InstanceOrConstructor) : option (Exception Params) := None.

Definition posted : HandlerInfo :=
  {| handlerKeys := ["general"]; isDirectMessage := false;
     member := Some ["Member"]; content := Some "hello" |}.





Lemma C2_witness :
  (∀ h, h ∈ getHandlers (Some (registry MESSAGE)) ["general"]
        ↔ reachable (registry MESSAGE) ["general"] h)
  ∧ getHandlers (Some (registry MESSAGE)) (handlerKeys posted)
    = [everywhere; inGeneral]
  ∧ invocations (handleEvent messageRelated registry quiet reasonName MESSAGE [posted]).1
    = [Instance 1; Constructor 2].
Proof.
  pose proof (C2_lookup_is_fan_out_union messageRelated registry quiet reasonName
                MESSAGE channels "general" [] posted everywhere inGeneral) as H.
  destruct H as (Hr & Hd & Hi);
    [reflexivity|discriminate|reflexivity|reflexivity|reflexivity
    |reflexivity|discriminate|].
  exact (conj (Hr (registry MESSAGE) ["general"]) (conj Hd Hi)).
Defined.

Lemma C3_witness :
  prop "" channels = Some (HIOCArray [everywhere])
  ∧ getHandlers (Some (HIOCTree channels)) [] = [everywhere]
  ∧ getHandlers (Some (HIOCTree channels)) [""; "thread"] = [everywhere]
  ∧ (getHandlersReads (HIOCTree channels) ["MESSAGE"] [""; "thread"]).1
    = [["MESSAGE"; ""]].
Proof.
  split; [reflexivity|].
  apply (C3_wildcard_child_read_once channels ["MESSAGE"] ["thread"]).
  reflexivity.
Defined.

(** A handler for the server only, for admins only. *)
Definition adminsOnServer : HIOC Params :=
  {| ioc := Instance 3;
     options := messageOptions SERVER (Some ["Admin"]) None |}.

Lemma C4_witness :
  isHandlerForLocation messageRelated adminsOnServer true = false
  ∧ isHandlerForRole messageRelated adminsOnServer ["Member"] = false
  ∧ filterHandlers messageRelated [everywhere; adminsOnServer] true ["Member"] None
      !! 1 = Some (Reject adminsOnServer WRONG_LOCATION).
Proof.
  split; [reflexivity|]. split; [reflexivity|].
  apply (C4_first_failed_stage messageRelated
           [everywhere; adminsOnServer] true ["Member"] None);
    reflexivity.
Defined.

(** The same singleton under the wildcard and under "general": it is met
    twice by the walk and invoked once. *)
Definition twice (e : DiscordEvent) : StringIndexedHIOCTreeNode Params :=
  match e with
  | MESSAGE =>
      HIOCTree [("", HIOCArray [everywhere]);
                ("general", HIOCArray [everywhere; inGeneral])]
  | _ => HIOCTree []
  end.

Example met_twice_invoked_once :
  ioc <$> getHandlers (Some (twice MESSAGE)) ["general"]
  = [Instance 1; Instance 1; Constructor 2]
  ∧ (handleEvent messageRelated twice quiet reasonName MESSAGE [posted; posted]).1
    = [Handle (Instance 1); New (Constructor 2); Handle (Constructor 2)].
Proof. split; vm_compute; reflexivity. Qed.

(** A handler that fails with the message "boom". *)
Definition explodes (c : InstanceOrConstructor) : option (Exception Params) :=
  match c with
  | Constructor 4 => Some (ErrorWithParams "boom" [("size", "big")])
  | Instance 5 => Some (Error "boom")
  | _ => None
  end.


Definition blank : HIOC Params :=
  {| ioc := Instance 5;
     options := messageOptions ANYWHERE None (Some {[ "boom" := "" ]}) |}.






(** A handler for the server only, with a text for the wrong location, in
    every channel; and two occurrences in direct messages. *)
Definition serverOnly : HIOC Params :=
  {| ioc := Instance 6;
     options := messageOptions SERVER None
                  (Some {[ "WRONG_LOCATION" := "Use this on the server" ]}) |}.

Definition muted : HIOC Params :=
  {| ioc := Instance 7;
     options := messageOptions SERVER None (Some {[ "WRONG_LOCATION" := "" ]}) |}.

Definition only (h : HIOC Params) (e : DiscordEvent)
  : StringIndexedHIOCTreeNode Params :=
  match e with
  | MESSAGE => HIOCTree [("", HIOCArray [h])]
  | _ => HIOCTree []
  end.

Definition direct (channel : string) : HandlerInfo :=
  {| handlerKeys := [channel]; isDirectMessage := true;
     member := None; content := Some "hi" |}.

(** C7, as the claim states it, fails here.  [serverOnly] is rejected
    twice, is never executed and has a text for the reason, and one reply is
    made, not two; [muted] is rejected, is never executed and has an entry
    for the reason, and no reply is made. *)
Lemma C7_second_rejection_is_silent :
  (rejections messageRelated (only serverOnly) MESSAGE [direct "a"; direct "b"]
   = [(serverOnly, WRONG_LOCATION); (serverOnly, WRONG_LOCATION)]
   ∧ (∃ errs, errors (options serverOnly) = Some errs
        ∧ is_Some (errs !! reasonName WRONG_LOCATION))
   ∧ handleEvent messageRelated (only serverOnly) quiet reasonName MESSAGE
       [direct "a"; direct "b"]
     = ([RejectWithError (Instance 6) (Error "Use this on the server")], inl ()))
  ∧ (rejections messageRelated (only muted) MESSAGE [direct "a"]
     = [(muted, WRONG_LOCATION)]
     ∧ (∃ errs, errors (options muted) = Some errs
          ∧ is_Some (errs !! reasonName WRONG_LOCATION))
     ∧ handleEvent messageRelated (only muted) quiet reasonName MESSAGE [direct "a"]
       = ([], inl ())).
Proof.
  split; (split; [reflexivity|]); split.
  - exists {[ "WRONG_LOCATION" := "Use this on the server" ]}.
    split; [reflexivity|]. eexists. reflexivity.
  - vm_compute. reflexivity.
  - exists {[ "WRONG_LOCATION" := "" ]}.
    split; [reflexivity|]. eexists. reflexivity.
  - vm_compute. reflexivity.
Qed.

(** The slash command "abc123" with the subcommand "ping", whose option
    "target" completes from a callback that fails on the input "?". *)
Definition targets (value : string) : list string + Exception Params :=
  if bool_decide (value = "?") then inr (Error "lookup failed")
  else inl [String.append value "-one"; String.append value "-two"].

Definition ping : HIOC Params :=
  {| ioc := Instance 8;
     options :=
       {| event := SLASH_COMMAND; location := None; allowedRoles := None;
          contentRegex := None; errors := None;
          slashOptions :=
            Some [ {| name := "count"; autocomplete := None |};
                   {| name := "target"; autocomplete := Some targets |} ] |} |}.

Definition commands (e : DiscordEvent) : StringIndexedHIOCTreeNode Params :=
  match e with
  | SLASH_COMMAND =>
      HIOCTree [("abc123", HIOCTree [("", HIOCTree [("ping", HIOCArray [ping])])])]
  | _ => HIOCTree []
  end.

Definition typing (command option_ value : string) : AutocompleteInteraction :=
  {| commandId := command; subcommandGroup := None; subcommand := Some "ping";
     focusedName := option_; focusedValue := value |}.

(** A request for a command that is not registered, and a request for an
    option without a callback: a warning, and no [Respond]. *)
Lemma C8_witness :
  handleAutocomplete commands (typing "zzz999" "target" "a")
  = ([WarnNoHandler ["zzz999"; ""; "ping"]], inl ())
  ∧ handleAutocomplete commands (typing "abc123" "count" "a")
    = ([WarnNoOption (Instance 8) "count"], inl ()).
Proof.
  split.
  - apply (C8_routing_miss_is_not_answered commands (typing "zzz999" "target" "a")).
    reflexivity.
  - apply (proj2 (C8_routing_miss_is_not_answered commands
                    (typing "abc123" "count" "a")) ping []);
      reflexivity.
Defined.

Lemma C9_witness :
  handleAutocomplete commands (typing "abc123" "target" "?")
  = ([Autocomplete "target" "?"; LogAutocompleteError (Error "lookup failed");
      Respond []], inl ())
  ∧ handleAutocomplete commands (typing "abc123" "target" "a")
    = ([Autocomplete "target" "a"; Respond ["a-one"; "a-two"]], inl ()).
Proof.
  split.
  - apply (C9_autocomplete_failure_is_contained commands
             (typing "abc123" "target" "?") ping []
             [ {| name := "count"; autocomplete := None |};
               {| name := "target"; autocomplete := Some targets |} ]
             {| name := "target"; autocomplete := Some targets |} targets);
      reflexivity.
  - apply (C9_autocomplete_failure_is_contained commands
             (typing "abc123" "target" "a") ping []
             [ {| name := "count"; autocomplete := None |};
               {| name := "target"; autocomplete := Some targets |} ]
             {| name := "target"; autocomplete := Some targets |} targets);
      reflexivity.
Defined.

(** ** The further properties on the concrete registries *)

Lemma X3_witness :
  filterHandlers messageRelated [ping] true [] None = Accept <$> [ping].
Proof.
  apply (X3_unrelated_options_always_pass messageRelated [ping] true [] None).
  intros h Hh. apply list_elem_of_singleton in Hh. rewrite Hh. reflexivity.
Defined.

Lemma X4_witness :
  filterHandlers messageRelated [adminsOnServer] false ["Admin"] None !! 0
  = Some (Accept adminsOnServer)
  ∧ filterHandlers messageRelated [adminsOnServer] false ["Member"; "Admin"] None !! 0
    = Some (Accept adminsOnServer).
Proof.
  split; [reflexivity|].
  apply (X4_more_roles_keep_acceptance messageRelated [adminsOnServer] false
           ["Admin"] ["Member"; "Admin"] None 0 adminsOnServer);
    [|reflexivity].
  intros role Hrole. apply list_elem_of_singleton in Hrole. rewrite Hrole.
  right. left.
Defined.

(** Message options that hold no location. *)
Definition nowhere : HIOC Params :=
  {| ioc := Instance 9;
     options :=
       {| event := MESSAGE; location := None; allowedRoles := None;
          contentRegex := None; errors := None; slashOptions := None |} |}.

Lemma X5_witness :
  ∃ reason,
    filterHandlers messageRelated [everywhere; nowhere] false [] (Some "hi") !! 1
    = Some (Reject nowhere reason).
Proof.
  apply (X5_missing_location_or_content_rejects messageRelated
           [everywhere; nowhere] false [] (Some "hi") 1 nowhere);
    [reflexivity|reflexivity|left; reflexivity].
Defined.

Lemma X9_witness :
  captures (handleEvent messageRelated (only blank) explodes reasonName MESSAGE
              [posted]).1 = [Instance 5]
  ∧ Instance 5 ∈ invocations
      (handleEvent messageRelated (only blank) explodes reasonName MESSAGE [posted]).1
  ∧ is_Some (explodes (Instance 5))
  ∧ Instance 5 ∉ replies
      (handleEvent messageRelated (only blank) explodes reasonName MESSAGE [posted]).1.
Proof.
  assert (Hc : captures
                 (handleEvent messageRelated (only blank) explodes reasonName
                    MESSAGE [posted]).1 = [Instance 5])
    by (vm_compute; reflexivity).
  split; [exact Hc|].
  apply (X9_captured_means_thrown_and_not_replied messageRelated (only blank)
           explodes reasonName MESSAGE [posted] (Instance 5)).
  rewrite Hc. left.
Defined.

Lemma X10_witness :
  rejections messageRelated (only serverOnly) MESSAGE [direct "a"; posted]
  = [(serverOnly, WRONG_LOCATION)]
  ∧ acceptedHiocs messageRelated (only serverOnly) MESSAGE [direct "a"; posted]
    = [serverOnly]
  ∧ ioc serverOnly ∉ replies
      (handleEvent messageRelated (only serverOnly) quiet reasonName MESSAGE
         [direct "a"; posted]).1.
Proof.
  split; [reflexivity|]. split; [reflexivity|].
  apply (X10_accepted_and_returning_is_not_replied messageRelated
           (only serverOnly) quiet reasonName MESSAGE [direct "a"; posted]
           serverOnly);
    [|reflexivity].
  change (acceptedHiocs messageRelated (only serverOnly) MESSAGE
            [direct "a"; posted]) with [serverOnly].
  left.
Defined.

Lemma X12_witness :
  ∃ h info,
    info ∈ [posted]
    ∧ h ∈ getHandlers (Some (registry MESSAGE)) (handlerKeys info)
    ∧ subject (New (Constructor 2) : Effect Params) = Some (ioc h).
Proof.
  apply (X12_effects_concern_found_handlers messageRelated registry quiet
           reasonName MESSAGE [posted] (New (Constructor 2))).
  assert (Htr : (handleEvent messageRelated registry quiet reasonName MESSAGE
                   [posted]).1
                = [Handle (Instance 1); New (Constructor 2); Handle (Constructor 2)])
    by (vm_compute; reflexivity).
  rewrite Htr. right. left.
Defined.

End Demo.
